(** * State-aware optimistic planning: the registry, the bound and the backup

    A shallow embedding of [rl_agents/agents/tree_search/state_aware.py]
    ([StateAwarePlanner] and [StateAwareNode]).

    Numbers are exact rationals ([Q]): the arithmetic of the planner is
    read as exact arithmetic, not as IEEE doubles.  Python exceptions are an
    explicit outcome ([Raise]); recursion is bounded by fuel, with [NoFuel]
    as the outcome of a call that is still recursing when the fuel is gone.

    Tree nodes are Python objects compared by identity: they are modelled as
    indices into a heap of node records, so that the aggregation index
    ([state_nodes]) and the frontier ([leaves]) alias the same objects. *)

From Stdlib Require Import QArith Qround Qminmax Lqa.
From stdpp Require Import gmap strings list fin_maps.

Open Scope string_scope.
Open Scope Q_scope.

(** ** Outcomes of a call *)

Inductive exn : Set :=
| KeyError            (* d[k] with k missing *)
| ValueError          (* max() of an empty sequence, list.remove(x) with x missing *)
| ZeroDivisionError.  (* 1 / (1 - gamma) with gamma = 1 *)

Inductive res (A : Type) : Type :=
| Ret (a : A)
| Raise (e : exn)
| NoFuel.

Arguments Ret {A} a.
Arguments Raise {A} e.
Arguments NoFuel {A}.

Definition bind {A B : Type} (m : res A) (k : A -> res B) : res B :=
  match m with
  | Ret a => k a
  | Raise e => Raise e
  | NoFuel => NoFuel
  end.

Notation "'let*' x ':=' m 'in' k" := (bind m (fun x => k))
  (at level 10, x pattern, m at level 100, k at level 200).

(** ** Comparisons on rationals, as booleans *)

Definition Qltb (x y : Q) : bool :=
  match x ?= y with
  | Lt => true
  | _ => false
  end.

(** ** Data model *)

Record Config : Type := mkConfig {
  gamma : Q;
  backup_aggregated_nodes : bool;
  prune_suboptimal_leaves : bool;
  stopping_accuracy : Q
}.

(** A tree node.  [observation] holds [str(self.observation)], the only form
    in which the planner ever uses it; a node that was never updated has
    observation [None], whose key is ["None"]. *)
Record Node : Type := mkNode {
  parent : option nat;
  children : list (nat * nat);   (* action, child: a dict in insertion order *)
  reward : Q;
  value : Q;
  depth : nat;
  done : bool;
  observation : string
}.

Definition fresh_node (par : option nat) (d : nat) : Node :=
  mkNode par [] 0 0 d false "None".

Record Planner : Type := mkPlanner {
  config : Config;
  heap : list Node;
  root : nat;
  state_nodes : gmap string (list nat);
  state_values : gmap string Q;
  leaves : list nat
}.

Definition set_heap (p : Planner) (h : list Node) : Planner :=
  mkPlanner (config p) h (root p) (state_nodes p) (state_values p) (leaves p).
Definition set_state_nodes (p : Planner) (m : gmap string (list nat)) : Planner :=
  mkPlanner (config p) (heap p) (root p) m (state_values p) (leaves p).
Definition set_state_values (p : Planner) (m : gmap string Q) : Planner :=
  mkPlanner (config p) (heap p) (root p) (state_nodes p) m (leaves p).
Definition set_leaves (p : Planner) (l : list nat) : Planner :=
  mkPlanner (config p) (heap p) (root p) (state_nodes p) (state_values p) l.

(** Dereferencing a node reference.  References held by a Python program
    never dangle; an index outside the heap reads as a fresh, unlinked node. *)
Definition node (p : Planner) (nid : nat) : Node :=
  nth nid (heap p) (fresh_node None 0).

Definition set_node (p : Planner) (nid : nat) (n : Node) : Planner :=
  set_heap p (<[nid := n]> (heap p)).

Definition set_observation (n : Node) (o : string) : Node :=
  mkNode (parent n) (children n) (reward n) (value n) (depth n) (done n) o.

(** ** Python primitives *)

(** [d[k]] *)
Definition getitem {V : Type} (m : gmap string V) (k : string) : res V :=
  match m !! k with
  | Some v => Ret v
  | None => Raise KeyError
  end.

(** [1 / (1 - gamma)] *)
Definition max_future (c : Config) : res Q :=
  if Qeq_bool (1 - gamma c) 0 then Raise ZeroDivisionError
  else Ret (1 / (1 - gamma c)).

(** [max(l, key=key)]: the key is computed once for every element, in order;
    a later element replaces the current best only when its key is strictly
    greater, so the first maximal element wins. *)
Fixpoint max_from {A : Type} (key : A -> res Q) (best : A) (kbest : Q)
    (l : list A) : res A :=
  match l with
  | [] => Ret best
  | x :: l' =>
      let* k := key x in
      if Qltb kbest k then max_from key x k l' else max_from key best kbest l'
  end.

Definition max_by {A : Type} (key : A -> res Q) (l : list A) : res A :=
  match l with
  | [] => Raise ValueError
  | x :: l' => let* k := key x in max_from key x k l'
  end.

(** [x in l] and [l.remove(x)] on lists of node references *)
Definition mem (x : nat) (l : list nat) : bool :=
  existsb (Nat.eqb x) l.

Fixpoint remove_first (x : nat) (l : list nat) : res (list nat) :=
  match l with
  | [] => Raise ValueError
  | y :: l' =>
      if Nat.eqb x y then Ret l'
      else let* l'' := remove_first x l' in Ret (y :: l'')
  end.

(** ** StateAwarePlanner *)

(** [StateAwarePlanner.update_value] *)
Definition update_value (p : Planner) (obs : string) (v : Q)
    : res (Planner * (bool * Q)) :=
  let stored := state_values p !! obs in
  if match stored with
     | None => true
     | Some cur => Qltb v cur
     end
  then
    let* dflt := max_future (config p) in
    let delta := default dflt stored - v in
    Ret (set_state_values p (<[obs := v]> (state_values p)), (true, delta))
  else Ret (p, (false, 0)).

(** [StateAwareNode.get_value_upper_bound] *)
Definition get_value_upper_bound (p : Planner) (n : Node) : res Q :=
  let* b := getitem (state_values p) (observation n) in
  Ret (value n + gamma (config p) ^ Z.of_nat (depth n) * b).

(** [StateAwarePlanner.make_root]: a new root object, which becomes the only
    member of the frontier. *)
Definition make_root (p : Planner) : Planner * nat :=
  let rid := length (heap p) in
  (mkPlanner (config p) (heap p ++ [fresh_node None 0])%list (root p)
             (state_nodes p) (state_values p) [rid], rid).

(** The three assignments that open [StateAwarePlanner.plan]. *)
Definition plan_init (p : Planner) (obs : string) : res Planner :=
  let p1 := set_node p (root p) (set_observation (node p (root p)) obs) in
  let p2 := set_state_nodes p1 (<[obs := [root p1]]> (state_nodes p1)) in
  let* dflt := max_future (config p2) in
  Ret (set_state_values p2 (<[obs := dflt]> (state_values p2))).

(** ** StateAwareNode *)

(** The recursive calls of the loop over the aggregated nodes of
    [backup_to_root]: [rec] is [backup_to_root] itself, [self] the node the
    loop runs for. *)
Fixpoint backup_aggregated (rec : Planner -> nat -> res (Planner * nat))
    (self : nat) (p : Planner) (nodes : list nat) : res (Planner * nat) :=
  match nodes with
  | [] => Ret (p, O)
  | nd :: rest =>
      let* (p1, c1) :=
        if negb (Nat.eqb nd self) then
          match parent (node p nd) with
          | Some par => rec p par
          | None => Ret (p, O)
          end
        else Ret (p, O) in
      let* (p2, c2) := backup_aggregated rec self p1 rest in
      Ret (p2, (c1 + c2)%nat)
  end.

(** The body of the branch [if updated and delta > stopping_accuracy] of
    [backup_to_root]: the parent of the node first, then the parents of the
    other nodes registered under the same state.  [rec] is [backup_to_root]
    itself, [p1] the planner after the bound of the node was tightened. *)
Definition propagate (rec : Planner -> nat -> res (Planner * nat))
    (nid : nat) (self : Node) (p1 : Planner) : res (Planner * nat) :=
  let* (p2, c1) :=
    match parent self with
    | Some par => rec p1 par
    | None => Ret (p1, O)
    end in
  if backup_aggregated_nodes (config p2) then
    let* nodes := getitem (state_nodes p2) (observation self) in
    let* (p3, c2) := backup_aggregated rec nid p2 nodes in
    Ret (p3, (1 + c1 + c2)%nat)
  else Ret (p2, (1 + c1)%nat).

(** [StateAwareNode.backup_to_root], on the node [nid]. *)
Fixpoint backup_to_root (fuel : nat) (p : Planner) (nid : nat)
    : res (Planner * nat) :=
  match fuel with
  | O => NoFuel
  | S fuel' =>
      let self := node p nid in
      match children self with
      | [] => Ret (p, O)
      | _ :: _ =>
          let* best := max_by (fun c => get_value_upper_bound p (node p c))
                              (map snd (children self)) in
          let best_child := node p best in
          let* b := getitem (state_values p) (observation best_child) in
          let backup := reward best_child + gamma (config p) * b in
          let* (p1, (updated, delta)) := update_value p (observation self) backup in
          if updated && Qltb (stopping_accuracy (config p1)) delta
          then propagate (backup_to_root fuel') nid self p1
          else Ret (p1, 1%nat)
      end
  end.

(** Registration of a node under its observation, the first step of
    [StateAwareNode.update] after the base class update. *)
Definition register (p : Planner) (nid : nat) (obs : string) : Planner :=
  let m := match state_nodes p !! obs with
           | None => <[obs := []]> (state_nodes p)
           | Some _ => state_nodes p
           end in
  set_state_nodes p (<[obs := (default [] (m !! obs) ++ [nid])%list]> m).

(** The nodes registered under [obs] that have no children and are in the
    frontier. *)
Definition state_leaves (p : Planner) (obs : string) : res (list nat) :=
  let* nodes := getitem (state_nodes p) obs in
  Ret (List.filter
         (fun nd => match children (node p nd) with [] => true | _ => false end
                    && mem nd (leaves p))
         nodes).

(** [[leaves.remove(node) for node in state_leaves if node is not best]] *)
Fixpoint remove_suboptimal (best : nat) (sl : list nat) (lv : list nat)
    : res (list nat) :=
  match sl with
  | [] => Ret lv
  | nd :: rest =>
      if Nat.eqb nd best then remove_suboptimal best rest lv
      else let* lv' := remove_first nd lv in remove_suboptimal best rest lv'
  end.

(** The pruning step of [StateAwareNode.update]. *)
Definition prune (p : Planner) (obs : string) : res Planner :=
  let* sl := state_leaves p obs in
  let* best := max_by (fun nd => get_value_upper_bound p (node p nd)) sl in
  let* lv := remove_suboptimal best sl (leaves p) in
  Ret (set_leaves p lv).

Section External.

(** The accumulated value of a node, computed by the base planner. *)
Variable accumulate : Planner -> nat -> Q -> res Q.

(** Modelled from the spec: [DeterministicNode.update], the base class
    update, is not part of this file.  It stores [reward] and [done] on the
    node, together with the accumulated value of the node, which the external
    convention [accumulate] computes, or fails to when the base class rejects
    the reward. *)
Definition base_update (p : Planner) (nid : nat) (r : Q) (d : bool)
    : res Planner :=
  let n := node p nid in
  let* v := accumulate p nid r in
  Ret (set_node p nid
         (mkNode (parent n) (children n) r v (depth n) d (observation n))).

(** [StateAwareNode.update] *)
Definition update (p : Planner) (nid : nat) (r : Q) (d : bool) (obs : string)
    : res Planner :=
  let* p1 := base_update p nid r d in
  let p2 := set_node p1 nid (set_observation (node p1 nid) obs) in
  let p3 := register p2 nid obs in
  let* future :=
    if negb (done (node p3 nid)) then max_future (config p3) else Ret 0 in
  let* (p4, _) := update_value p3 obs future in
  if prune_suboptimal_leaves (config p4) then prune p4 obs else Ret p4.

(** The expansion of a leaf ([DeterministicNode.expand]) is not part of this
    file either. *)
Variable expand : Planner -> nat -> res Planner.

(** [StateAwarePlanner.run]: the planner after the iteration, and the
    count stored in [leaf_to_expand.updated_nodes]. *)
Definition run (fuel : nat) (p : Planner) : res (Planner * nat) :=
  let* leaf := max_by (fun nd => get_value_upper_bound p (node p nd))
                      (leaves p) in
  let* p1 := expand p leaf in
  backup_to_root fuel p1 leaf.

End External.

(** ** The specification's reading of the registry *)

(** [upper_bound(state_id)] in the words of the specification: the current
    bound, or [1/(1-gamma)] for a state that has never been seen. *)
Definition spec_upper_bound (p : Planner) (s : string) : Q :=
  default (1 / (1 - gamma (config p))) (state_values p !! s).

(** [tighten(s, v)] in the words of the specification, as a relation
    between the planner and what [update_value] returns. *)
Definition spec_tighten (p : Planner) (s : string) (v : Q) : Prop :=
  (v < spec_upper_bound p s ->
     exists p', update_value p s v = Ret (p', (true, spec_upper_bound p s - v))
                /\ state_values p' !! s = Some v)
  /\ (spec_upper_bound p s <= v -> update_value p s v = Ret (p, (false, 0))).

(** ** Predicates on planners *)

(** No bound that is present is replaced by anything but a strictly smaller
    value between [p] and [p']. *)
Definition bounds_nonincreasing (p p' : Planner) : Prop :=
  forall k b, state_values p !! k = Some b ->
    exists b', state_values p' !! k = Some b' /\ (b' = b \/ b' < b).

(** [p'] differs from [p] in the registry of bounds at most. *)
Definition same_tree (p p' : Planner) : Prop :=
  config p' = config p /\ heap p' = heap p /\ root p' = root p
  /\ state_nodes p' = state_nodes p /\ leaves p' = leaves p.

(** [nd] is registered under the state [s]. *)
Definition registered (p : Planner) (s : string) (nd : nat) : Prop :=
  exists nodes, state_nodes p !! s = Some nodes /\ nd ∈ nodes.

(** A node of [p] that has no children and is a member of the frontier. *)
Definition frontier_node (p : Planner) (nd : nat) : Prop :=
  children (node p nd) = [] /\ nd ∈ leaves p.

(** At most one childless member of the frontier is registered under [s]. *)
Definition unique_frontier (p : Planner) (s : string) : Prop :=
  forall x y, registered p s x -> frontier_node p x ->
              registered p s y -> frontier_node p y -> x = y.

(** The pruning invariant: the frontier holds every node once, and every
    state has at most one childless frontier node registered under it. *)
Definition pruning_invariant (p : Planner) : Prop :=
  NoDup (leaves p) /\ forall s, unique_frontier p s.

(** ** The steps of [update], and the moves around it *)

(** The planner in the middle of [update], once the node carries its new
    fields (accumulated value [v]) and is registered under [obs], before the
    bound of [obs] is tightened. *)
Definition registered_state (p : Planner) (nid : nat) (r : Q) (d : bool) (v : Q)
    (obs : string) : Planner :=
  let n := node p nid in
  let p1 := set_node p nid
              (mkNode (parent n) (children n) r v (depth n) d (observation n)) in
  register (set_node p1 nid (set_observation (node p1 nid) obs)) nid obs.

(** The default continuation estimate of [update]. *)
Definition future_value_ucb (c : Config) (d : bool) : Q :=
  if d then 0 else 1 / (1 - gamma c).

(** Modelled from the spec: the expansion mechanic
    ([DeterministicNode.expand]) is not part of this file.  Of it, these are
    the two moves on the frontier: the expanded node is removed from it, and
    a newly created child is added to it.  A newly created child is in no
    registry entry yet, and is not in the frontier. *)
Inductive frontier_move : Planner -> Planner -> Prop :=
| frontier_remove p nid lv :
    remove_first nid (leaves p) = Ret lv ->
    frontier_move p (set_leaves p lv)
| frontier_append p nid :
    nid ∉ leaves p -> (forall s, ~ registered p s nid) ->
    frontier_move p (set_leaves p (leaves p ++ [nid])%list).

(** The moves of the planner between which the pruning invariant is
    observed: the functions of this file, and the frontier moves of the
    expansion. *)
Inductive planner_step (accumulate : Planner -> nat -> Q -> res Q)
    : Planner -> Planner -> Prop :=
| step_update p nid r d obs p' :
    update accumulate p nid r d obs = Ret p' ->
    planner_step accumulate p p'
| step_backup fuel p nid p' c :
    backup_to_root fuel p nid = Ret (p', c) ->
    planner_step accumulate p p'
| step_make_root p :
    planner_step accumulate p (fst (make_root p))
| step_plan p obs p' :
    plan_init p obs = Ret p' ->
    planner_step accumulate p p'
| step_frontier p p' :
    frontier_move p p' ->
    planner_step accumulate p p'.

Inductive planner_steps (accumulate : Planner -> nat -> Q -> res Q)
    : Planner -> Planner -> Prop :=
| steps_nil p : planner_steps accumulate p p
| steps_cons p q r :
    planner_step accumulate p q -> planner_steps accumulate q r ->
    planner_steps accumulate p r.

(** ** A measure for the backup *)

(** The number of whole steps of size [eps] that fit between [lo] and [x]. *)
Definition level (eps lo x : Q) : nat :=
  Z.to_nat (Qfloor ((x - lo) / eps)).

(** What the state [k] still has to lose: the level of its bound, and one
    more than any level while it has no bound. *)
Definition key_potential (eps lo hi : Q) (m : gmap string Q) (k : string) : nat :=
  match m !! k with
  | Some b => level eps lo b
  | None => S (level eps lo hi)
  end.

Definition potential (eps lo hi : Q) (ks : list string) (m : gmap string Q) : nat :=
  sum_list_with (key_potential eps lo hi m) ks.

(** The states of the nodes of the tree. *)
Definition node_keys (p : Planner) : list string :=
  map observation (fresh_node None 0 :: heap p).

(** Every bound lies in [[lo, hi]], and so does the value of an endless
    stream of any reward of the tree. *)
Definition bounded (lo hi : Q) (p : Planner) : Prop :=
  (forall k b, state_values p !! k = Some b -> lo <= b <= hi)
  /\ (forall nid, (1 - gamma (config p)) * lo <= reward (node p nid)
                  /\ reward (node p nid) <= (1 - gamma (config p)) * hi).

Definition all_values (p : Planner) : list Q :=
  (map snd (map_to_list (state_values p))
   ++ map (fun n => reward n / (1 - gamma (config p)))
          (fresh_node None 0 :: heap p))%list.

Definition lowest (p : Planner) : Q := fold_right Qmin 0 (all_values p).
Definition highest (p : Planner) : Q := fold_right Qmax 0 (all_values p).

(** Fuel that is enough for any backup on [p]. *)
Definition backup_fuel (p : Planner) : nat :=
  S (potential (stopping_accuracy (config p)) (lowest p) (highest p)
               (node_keys p) (state_values p)).

(** A call that has come to an end, with a planner that satisfies [P] when
    it returned. *)
Definition ended (P : Planner -> Prop) (r : res (Planner * nat)) : Prop :=
  match r with
  | Ret (p', _) => P p'
  | Raise _ => True
  | NoFuel => False
  end.

(** ** Concrete planners *)

Definition cfg_half : Config := mkConfig (1#2) true true 0.

Definition with_accuracy (p : Planner) (eps : Q) : Planner :=
  mkPlanner (mkConfig (gamma (config p)) (backup_aggregated_nodes (config p))
                      (prune_suboptimal_leaves (config p)) eps)
            (heap p) (root p) (state_nodes p) (state_values p) (leaves p).

(** An accumulated value in the style of the base planner: the parent's
    value plus the discounted reward, as a reduced fraction. *)
Definition accumulate_ex (p : Planner) (nid : nat) (r : Q) : res Q :=
  match parent (node p nid) with
  | Some par =>
      Ret (Qred (value (node p par)
                 + gamma (config p) ^ (Z.of_nat (depth (node p nid)) - 1) * r))
  | None => Ret r
  end.

(** An expansion in an environment with a single action, whose transition
    has reward 0 and reaches the state [obs]: the leaf leaves the frontier,
    its child is created, enters the frontier and is updated. *)
Definition expand_to (obs : string) (p : Planner) (leaf : nat) : res Planner :=
  let n := node p leaf in
  let cid := length (heap p) in
  let* lv := remove_first leaf (leaves p) in
  let p1 := set_node p leaf
              (mkNode (parent n) (children n ++ [(O, cid)])%list (reward n)
                      (value n) (depth n) (done n) (observation n)) in
  let p2 := mkPlanner (config p1)
              (heap p1 ++ [fresh_node (Some leaf) (S (depth n))])%list
              (root p1) (state_nodes p1) (state_values p1)
              (lv ++ [cid])%list in
  update accumulate_ex p2 cid 0 false obs.

(** A planner that has not planned yet, and the same one after [make_root]. *)
Definition planner_new : Planner := mkPlanner cfg_half [] O ∅ ∅ [].
Definition planner_rooted : Planner := fst (make_root planner_new).

(** The planner once [plan] has initialised the root for the state ["A"]. *)
Definition planner_planned : Planner :=
  mkPlanner cfg_half [mkNode None [] 0 0 O false "A"] O
            (<["A" := [O]]> ∅) (<["A" := 2]> ∅) [O].

(** The planner after planning for ["A"], with the bound of ["A"] tightened
    to 0. *)
Definition planner_tightened : Planner :=
  set_state_values planner_planned (<["A" := 0]> (state_values planner_planned)).

(** A node that was created but never went through [update]. *)
Definition planner_unseen : Planner :=
  mkPlanner cfg_half
    [mkNode None [(O, 1%nat)] 0 0 O false "A"; fresh_node (Some O) 1]
    O (<["A" := [O]]> ∅) (<["A" := 2]> ∅) [1%nat].

(** [planner_planned] after one iteration of the search loop in an
    environment whose only action leads from ["A"] to ["B"] with reward 0:
    the root has a child in ["B"], and its backup lowered the bound of ["A"]
    from 2 to [0 + 1/2 * 2]. *)
Definition planner_one_expansion : Planner :=
  mkPlanner cfg_half
    [ mkNode None [(O, 1%nat)] 0 0 O false "A";
      mkNode (Some O) [] 0 0 1 false "B" ]
    O
    (<["B" := [1%nat]]> (<["A" := [O]]> ∅))
    (<["B" := 2]> (<["A" := 0 + (1#2) * 2]> ∅))
    [1%nat].

(** Two states that lead to each other with reward 0: the planner above
    once node 1 was expanded in its turn, the action leading back from ["B"]
    to ["A"].  The root (node 0) is in ["A"], its child (node 1) in ["B"],
    and the child of that one (node 2) in ["A"] again. *)
Definition planner_cycle : Planner :=
  mkPlanner cfg_half
    [ mkNode None [(O, 1%nat)] 0 0 O false "A";
      mkNode (Some O) [(O, 2%nat)] 0 0 1 false "B";
      mkNode (Some 1%nat) [] 0 0 2 false "A" ]
    O
    (<["A" := [O; 2%nat]]> (<["B" := [1%nat]]> ∅))
    (<["A" := 0 + (1#2) * 2]> (<["B" := 2]> ∅))
    [2%nat].

(** The planner in the middle of the expansion of the root, whose two
    actions both lead to the state ["B"]: the two children exist, and neither
    has been through [update] or entered the frontier yet. *)
Definition planner_expanding : Planner :=
  mkPlanner cfg_half
    [ mkNode None [(O, 1%nat); (1%nat, 2%nat)] 0 0 O false "A";
      fresh_node (Some O) 1;
      fresh_node (Some O) 1 ]
    O (<["A" := [O]]> ∅) (<["A" := 2]> ∅) [O].

(** [planner_expanding] once the root left the frontier and the first child
    (reward 1) entered it and was updated; then once the second child entered
    the frontier, before its [update]. *)
Definition planner_first_child : Planner :=
  mkPlanner cfg_half
    [ mkNode None [(O, 1%nat); (1%nat, 2%nat)] 0 0 O false "A";
      mkNode (Some O) [] 1 1 1 false "B";
      fresh_node (Some O) 1 ]
    O (<["B" := [1%nat]]> (<["A" := [O]]> ∅)) (<["B" := 2]> (<["A" := 2]> ∅))
    [1%nat].

Definition planner_second_child : Planner :=
  set_leaves planner_first_child [1%nat; 2%nat].

(** ** The rest of the planner *)

(** [StateAwarePlanner.__init__]: once the constructor of the base class
    has built the planner [p], the two registries start empty. *)
Definition init_registries (p : Planner) : Planner :=
  mkPlanner (config p) (heap p) (root p) ∅ ∅ (leaves p).

(** Every bound lies between 0 and [1/(1-gamma)], and every reward between
    0 and 1. *)
Definition in_range (p : Planner) : Prop :=
  (forall k b, state_values p !! k = Some b ->
     0 <= b /\ b <= 1 / (1 - gamma (config p)))
  /\ (forall nid, 0 <= reward (node p nid) /\ reward (node p nid) <= 1).

(** Every node is deeper than its parent. *)
Definition shallower_parents (p : Planner) : Prop :=
  forall nid par, parent (node p nid) = Some par ->
    (depth (node p par) < depth (node p nid))%nat.

(** No node with children is in the state [k]. *)
Definition unexpanded_state (p : Planner) (k : string) : Prop :=
  forall nid, children (node p nid) <> [] -> observation (node p nid) <> k.

(** A planner with [gamma = 1]. *)
Definition planner_undiscounted : Planner :=
  mkPlanner (mkConfig 1 true true 0) [mkNode None [] 0 0 O false "A"] O
            (<["A" := [O]]> ∅) (<["A" := 2]> ∅) [O].


(** Two children of the root in the same state ["B"] with the same
    accumulated value, both in the frontier: a tie for the pruning step. *)
Definition planner_tie : Planner :=
  mkPlanner cfg_half
    [ mkNode None [(O, 1%nat); (1%nat, 2%nat)] 0 0 O false "A";
      mkNode (Some O) [] 1 1 1 false "B";
      mkNode (Some O) [] 1 1 1 false "B" ]
    O (<["B" := [1%nat; 2%nat]]> (<["A" := [O]]> ∅))
    (<["B" := 2]> (<["A" := 2]> ∅))
    [1%nat; 2%nat].

(** The second child of [planner_tie] has a lower value and was registered
    twice under ["B"]. *)
Definition planner_twice : Planner :=
  mkPlanner cfg_half
    [ mkNode None [(O, 1%nat); (1%nat, 2%nat)] 0 0 O false "A";
      mkNode (Some O) [] 1 1 1 false "B";
      mkNode (Some O) [] (1#2) (1#2) 1 false "B" ]
    O (<["B" := [1%nat; 2%nat; 2%nat]]> (<["A" := [O]]> ∅))
    (<["B" := 2]> (<["A" := 2]> ∅))
    [1%nat; 2%nat].


(** [planner_cycle] with the backup of aggregated nodes switched off. *)
Definition planner_cycle_plain : Planner :=
  mkPlanner (mkConfig (1#2) false true 0) (heap planner_cycle) (root planner_cycle)
            (state_nodes planner_cycle) (state_values planner_cycle)
            (leaves planner_cycle).


(** Every state that has an entry in the node index has a bound. *)
Definition bounds_cover_index (p : Planner) : Prop :=
  forall s nodes, state_nodes p !! s = Some nodes ->
    is_Some (state_values p !! s).


(** * Properties *)

(** ** Rational comparisons *)

Lemma Qltb_lt (x y : Q) : Qltb x y = true <-> x < y.
Proof.
  unfold Qltb. rewrite Qlt_alt.
  destruct (Qcompare x y); split; congruence.
Qed.

Lemma Qltb_ge (x y : Q) : Qltb x y = false <-> y <= x.
Proof.
  split.
  - intros H. apply Qnot_lt_le. intros Hlt. apply Qltb_lt in Hlt. congruence.
  - intros H. destruct (Qltb x y) eqn:E; [|reflexivity].
    apply Qltb_lt in E. exfalso. exact (Qle_not_lt _ _ H E).
Qed.

Lemma max_future_lt1 (c : Config) :
  gamma c < 1 -> max_future c = Ret (1 / (1 - gamma c)).
Proof.
  intros H. unfold max_future.
  destruct (Qeq_bool (1 - gamma c) 0) eqn:E; [|reflexivity].
  apply Qeq_bool_eq in E. lra.
Qed.

(** ** update_value *)

Lemma update_value_present_lt (p : Planner) (s : string) (v cur : Q) :
  gamma (config p) < 1 ->
  state_values p !! s = Some cur -> v < cur ->
  update_value p s v
  = Ret (set_state_values p (<[s := v]> (state_values p)), (true, cur - v)).
Proof.
  intros Hg Hs Hlt. unfold update_value. rewrite Hs.
  apply Qltb_lt in Hlt. rewrite Hlt, (max_future_lt1 _ Hg). reflexivity.
Qed.

Lemma update_value_present_ge (p : Planner) (s : string) (v cur : Q) :
  state_values p !! s = Some cur -> cur <= v ->
  update_value p s v = Ret (p, (false, 0)).
Proof.
  intros Hs Hge. unfold update_value. rewrite Hs.
  apply Qltb_ge in Hge. rewrite Hge. reflexivity.
Qed.

Lemma update_value_absent (p : Planner) (s : string) (v : Q) :
  gamma (config p) < 1 ->
  state_values p !! s = None ->
  update_value p s v
  = Ret (set_state_values p (<[s := v]> (state_values p)),
         (true, 1 / (1 - gamma (config p)) - v)).
Proof.
  intros Hg Hs. unfold update_value. rewrite Hs, (max_future_lt1 _ Hg).
  reflexivity.
Qed.

(** What a successful [update_value] does to the planner: nothing, or one
    store of [v] at [s]. *)
Lemma update_value_inv (p p' : Planner) (s : string) (v : Q) (u : bool) (dl : Q) :
  update_value p s v = Ret (p', (u, dl)) ->
  (u = false /\ p' = p /\ (exists cur, state_values p !! s = Some cur /\ cur <= v))
  \/ (u = true /\ p' = set_state_values p (<[s := v]> (state_values p))
      /\ (exists dflt, max_future (config p) = Ret dflt
                       /\ dl = default dflt (state_values p !! s) - v)
      /\ (forall cur, state_values p !! s = Some cur -> v < cur)).
Proof.
  unfold update_value. intros H.
  destruct (state_values p !! s) as [cur|] eqn:Hs.
  - destruct (Qltb v cur) eqn:E.
    + destruct (max_future (config p)) as [dflt| |] eqn:Hd; simpl in H; try discriminate.
      inversion H; subst. right. repeat split; eauto.
      intros cur' Hc. inversion Hc; subst. by apply Qltb_lt.
    + inversion H; subst. left. repeat split. exists cur. split; [done|].
      by apply Qltb_ge.
  - destruct (max_future (config p)) as [dflt| |] eqn:Hd; simpl in H; try discriminate.
    inversion H; subst. right. repeat split; eauto. intros cur Hc. discriminate.
Qed.

(** C1, as amended.  For a state that is present in the registry,
    [update_value] with a candidate strictly below the stored bound stores
    the candidate and returns [(true, old - v)], and with a candidate that is
    not below it returns [(false, 0)] and leaves the planner unchanged.  For a
    state that is absent, it stores the candidate and returns
    [(true, 1/(1-gamma) - v)] whatever the candidate is. *)
Theorem update_value_tighten (p : Planner) (s : string) (v : Q) :
  gamma (config p) < 1 ->
  (forall cur, state_values p !! s = Some cur ->
     (v < cur ->
        update_value p s v
        = Ret (set_state_values p (<[s := v]> (state_values p)), (true, cur - v)))
     /\ (cur <= v -> update_value p s v = Ret (p, (false, 0))))
  /\ (state_values p !! s = None ->
        update_value p s v
        = Ret (set_state_values p (<[s := v]> (state_values p)),
               (true, 1 / (1 - gamma (config p)) - v))).
Proof.
  intros Hg. split.
  - intros cur Hs. split; intros Hv.
    + by apply update_value_present_lt.
    + by eapply update_value_present_ge.
  - intros Hs. by apply update_value_absent.
Qed.

Lemma update_value_tighten_witness :
  update_value planner_planned "A" 1
  = Ret (set_state_values planner_planned
           (<["A" := 1]> (state_values planner_planned)), (true, 2 - 1))
  /\ update_value planner_planned "A" 2 = Ret (planner_planned, (false, 0))
  /\ update_value planner_rooted "A" 3
     = Ret (set_state_values planner_rooted
              (<["A" := 3]> (state_values planner_rooted)),
            (true, 1 / (1 - gamma (config planner_rooted)) - 3)).
Proof.
  assert (Hg : gamma (config planner_planned) < 1) by (vm_compute; reflexivity).
  assert (Hg' : gamma (config planner_rooted) < 1) by (vm_compute; reflexivity).
  destruct (update_value_tighten planner_planned "A" 1 Hg) as [H1 _].
  destruct (update_value_tighten planner_planned "A" 2 Hg) as [H2 _].
  destruct (update_value_tighten planner_rooted "A" 3 Hg') as [_ H3].
  split; [|split].
  - apply (H1 2); [reflexivity | vm_compute; reflexivity].
  - apply (H2 2); [reflexivity | vm_compute; discriminate].
  - apply H3. reflexivity.
Defined.

(** C1, counterexample.  On a planner that has never seen ["A"], with
    [gamma = 1/2] (so that the default bound is 2), the candidate 2 is not
    below the default, yet [update_value] stores it and answers [true]: the
    reading of the specification fails there. *)
Lemma update_value_unseen_counterexample :
  update_value planner_rooted "A" 2
  = Ret (set_state_values planner_rooted (<["A" := 2]> ∅), (true, 2 - 2))
  /\ ~ spec_tighten planner_rooted "A" 2.
Proof.
  split; [reflexivity|].
  intros [_ H].
  assert (Hle : spec_upper_bound planner_rooted "A" <= 2)
    by (vm_compute; discriminate).
  specialize (H Hle). discriminate H.
Qed.

(** ** max() *)

Lemma max_from_elem {A : Type} (key : A -> res Q) (l : list A) (b x : A) (kb : Q) :
  max_from key b kb l = Ret x -> x = b \/ x ∈ l.
Proof.
  revert b kb. induction l as [|y l IH]; intros b kb H; simpl in H.
  - inversion H. by left.
  - destruct (key y) as [k| |]; simpl in H; try discriminate.
    destruct (Qltb kb k).
    + apply IH in H as [->|H]; right; [left | by right].
    + apply IH in H as [->|H]; [by left | right; by right].
Qed.

Lemma max_by_elem {A : Type} (key : A -> res Q) (l : list A) (x : A) :
  max_by key l = Ret x -> x ∈ l.
Proof.
  destruct l as [|y l]; simpl; [discriminate|].
  destruct (key y) as [k| |]; simpl; try discriminate.
  intros H. apply max_from_elem in H as [->|H]; [left | by right].
Qed.

Lemma max_from_maximal {A : Type} (key : A -> res Q) (l : list A) (b x : A) (kb : Q) :
  key b = Ret kb -> max_from key b kb l = Ret x ->
  exists kx, key x = Ret kx /\ kb <= kx
             /\ forall y, y ∈ l -> exists ky, key y = Ret ky /\ ky <= kx.
Proof.
  revert b kb. induction l as [|y l IH]; intros b kb Hb H; simpl in H.
  - inversion H; subst. exists kb. split; [done|]. split; [apply Qle_refl|].
    intros y Hy. inversion Hy.
  - destruct (key y) as [k| |] eqn:Hy; simpl in H; try discriminate.
    destruct (Qltb kb k) eqn:E.
    + apply Qltb_lt in E.
      destruct (IH y k Hy H) as (kx & Hx & Hle & Hall).
      exists kx. split; [done|]. split; [lra|].
      intros z Hz. apply elem_of_cons in Hz as [->|Hz]; [|by apply Hall].
      exists k. by split.
    + apply Qltb_ge in E.
      destruct (IH b kb Hb H) as (kx & Hx & Hle & Hall).
      exists kx. split; [done|]. split; [done|].
      intros z Hz. apply elem_of_cons in Hz as [->|Hz]; [|by apply Hall].
      exists k. split; [done|lra].
Qed.

Lemma max_by_maximal {A : Type} (key : A -> res Q) (l : list A) (x : A) :
  max_by key l = Ret x ->
  exists kx, key x = Ret kx
             /\ forall y, y ∈ l -> exists ky, key y = Ret ky /\ ky <= kx.
Proof.
  destruct l as [|z l]; simpl; [discriminate|].
  destruct (key z) as [k| |] eqn:Hz; simpl; try discriminate.
  intros H. destruct (max_from_maximal key l z x k Hz H) as (kx & Hx & Hle & Hall).
  exists kx. split; [done|].
  intros y Hy. apply elem_of_cons in Hy as [->|Hy]; [|by apply Hall].
  exists k. by split.
Qed.

(** A key that can only fail with one exception makes [max] fail with it as
    soon as it fails on one element. *)
Lemma max_from_raise {A : Type} (key : A -> res Q) (e : exn) (l : list A) (b : A) (kb : Q) :
  (forall y, y ∈ l -> key y = Raise e \/ exists k, key y = Ret k) ->
  (exists y, y ∈ l /\ key y = Raise e) ->
  max_from key b kb l = Raise e.
Proof.
  revert b kb. induction l as [|y l IH]; intros b kb Hall (z & Hz & Hk).
  - inversion Hz.
  - simpl. destruct (Hall y) as [Hy|[k Hy]]; [left | by rewrite Hy |].
    rewrite Hy. simpl.
    assert (Hrest : exists y0, y0 ∈ l /\ key y0 = Raise e).
    { apply elem_of_cons in Hz as [->|Hz]; [congruence | eauto]. }
    assert (Hall' : forall y0, y0 ∈ l -> key y0 = Raise e \/ exists k0, key y0 = Ret k0).
    { intros y0 Hy0. apply Hall. by right. }
    destruct (Qltb kb k); by apply IH.
Qed.

Lemma max_by_raise {A : Type} (key : A -> res Q) (e : exn) (l : list A) :
  (forall y, y ∈ l -> key y = Raise e \/ exists k, key y = Ret k) ->
  (exists y, y ∈ l /\ key y = Raise e) ->
  max_by key l = Raise e.
Proof.
  intros Hall (z & Hz & Hk). destruct l as [|y l]; [inversion Hz|].
  simpl. destruct (Hall y) as [Hy|[k Hy]]; [left | by rewrite Hy |].
  rewrite Hy. simpl. apply max_from_raise.
  - intros y0 Hy0. apply Hall. by right.
  - apply elem_of_cons in Hz as [->|Hz]; [congruence | eauto].
Qed.

(** ** get_value_upper_bound *)

Lemma get_value_upper_bound_cases (p : Planner) (n : Node) :
  get_value_upper_bound p n = Raise KeyError
  \/ exists q, get_value_upper_bound p n = Ret q.
Proof.
  unfold get_value_upper_bound, getitem.
  destruct (state_values p !! observation n); simpl; eauto.
Qed.

Lemma get_value_upper_bound_absent (p : Planner) (n : Node) :
  state_values p !! observation n = None ->
  get_value_upper_bound p n = Raise KeyError.
Proof.
  intros H. unfold get_value_upper_bound, getitem. by rewrite H.
Qed.

(** C6.  For a node whose state has a registered bound,
    [get_value_upper_bound] returns the accumulated value plus [gamma^depth]
    times the upper bound of the state. *)
Theorem get_value_upper_bound_formula (p : Planner) (n : Node) :
  is_Some (state_values p !! observation n) ->
  get_value_upper_bound p n
  = Ret (value n + gamma (config p) ^ Z.of_nat (depth n)
                   * spec_upper_bound p (observation n)).
Proof.
  intros [b Hb]. unfold get_value_upper_bound, getitem, spec_upper_bound.
  rewrite Hb. reflexivity.
Qed.

Lemma get_value_upper_bound_formula_witness :
  get_value_upper_bound planner_planned (node planner_planned O)
  = Ret (0 + (1#2) ^ 0 * spec_upper_bound planner_planned "A").
Proof.
  apply (get_value_upper_bound_formula planner_planned (node planner_planned O)).
  exists 2. reflexivity.
Defined.

(** C5, counterexample.  The child of [planner_unseen] was never updated, so
    its state is absent from the registry: computing its bound raises
    [KeyError], and so does [backup_to_root] on its parent. *)
Lemma unseen_lookup_counterexample :
  state_values planner_unseen !! observation (node planner_unseen 1) = None
  /\ get_value_upper_bound planner_unseen (node planner_unseen 1) = Raise KeyError
  /\ backup_to_root 2 planner_unseen O = Raise KeyError.
Proof. repeat split. Qed.

(** C5, as amended.  A state that is absent from the registry has no bound
    to look up: [get_value_upper_bound] raises [KeyError] on a node that
    reached it, and [backup_to_root] raises [KeyError] on a node one of whose
    children reached it.  The default [1/(1-gamma)] is used in one place
    only, as the old bound from which [update_value] computes the
    improvement of the first store. *)
Theorem unseen_state_lookup (p : Planner) :
  (forall n, state_values p !! observation n = None ->
     get_value_upper_bound p n = Raise KeyError)
  /\ (forall fuel nid c,
        c ∈ map snd (children (node p nid)) ->
        state_values p !! observation (node p c) = None ->
        backup_to_root (S fuel) p nid = Raise KeyError)
  /\ (forall s v, gamma (config p) < 1 -> state_values p !! s = None ->
        exists p', update_value p s v
                   = Ret (p', (true, 1 / (1 - gamma (config p)) - v))
                   /\ state_values p' !! s = Some v).
Proof.
  split; [|split].
  - intros n. apply get_value_upper_bound_absent.
  - intros fuel nid c Hc Habs. simpl.
    destruct (children (node p nid)) as [|ch chs] eqn:Hch; [inversion Hc|].
    rewrite (max_by_raise _ KeyError); [reflexivity| |].
    + intros y _. apply get_value_upper_bound_cases.
    + exists c. split; [done|]. by apply get_value_upper_bound_absent.
  - intros s v Hg Hs. rewrite (update_value_absent _ _ _ Hg Hs).
    eexists. split; [reflexivity|]. simpl. apply lookup_insert_eq.
Qed.

Lemma unseen_state_lookup_witness :
  get_value_upper_bound planner_unseen (node planner_unseen 1) = Raise KeyError
  /\ backup_to_root 1 planner_unseen O = Raise KeyError
  /\ exists p', update_value planner_unseen "None" 1
                = Ret (p', (true, 1 / (1 - gamma (config planner_unseen)) - 1))
                /\ state_values p' !! "None" = Some 1.
Proof.
  destruct (unseen_state_lookup planner_unseen) as (H1 & H2 & H3).
  split; [|split].
  - apply H1. reflexivity.
  - apply (H2 O O 1%nat); [vm_compute; left | reflexivity].
  - apply H3; [vm_compute; reflexivity | reflexivity].
Defined.

(** ** The heap, the frontier and the aggregation index *)

Lemma mem_elem (x : nat) (l : list nat) : mem x l = true <-> x ∈ l.
Proof.
  unfold mem. rewrite existsb_exists, list_elem_of_In. split.
  - intros (y & Hy & E). apply Nat.eqb_eq in E. by subst.
  - intros H. exists x. split; [done | apply Nat.eqb_refl].
Qed.

Lemma node_set_node (p : Planner) (nid nd : nat) (n : Node) :
  node (set_node p nid n) nd
  = if decide (nid = nd /\ (nid < length (heap p))%nat) then n else node p nd.
Proof.
  unfold node, set_node. simpl. rewrite !nth_lookup.
  destruct (decide (nid = nd /\ (nid < length (heap p))%nat)) as [[-> Hlt]|Hn].
  - by rewrite list_lookup_insert_eq.
  - destruct (decide (nid = nd)) as [->|Hne].
    + rewrite list_insert_ge; [done|]. apply Nat.nlt_ge. intros Hlt. by apply Hn.
    + by rewrite list_lookup_insert_ne.
Qed.

Lemma children_set_node (p : Planner) (nid nd : nat) (n : Node) :
  children n = children (node p nid) ->
  children (node (set_node p nid n) nd) = children (node p nd).
Proof.
  intros H. rewrite node_set_node. case_decide as Hd; [|done].
  destruct Hd as [-> _]. done.
Qed.

Lemma update_value_frame (p p' : Planner) (s : string) (v : Q) (r : bool * Q) :
  update_value p s v = Ret (p', r) ->
  config p' = config p /\ heap p' = heap p /\ root p' = root p
  /\ state_nodes p' = state_nodes p /\ leaves p' = leaves p.
Proof.
  destruct r as [u dl]. intros H.
  apply update_value_inv in H as [(_ & -> & _)|(_ & -> & _)]; done.
Qed.

Lemma register_lookup (p : Planner) (nid : nat) (obs : string) :
  state_nodes (register p nid obs) !! obs
  = Some (default [] (state_nodes p !! obs) ++ [nid])%list.
Proof.
  unfold register. simpl. rewrite lookup_insert_eq.
  destruct (state_nodes p !! obs) eqn:E; [by rewrite E|].
  by rewrite lookup_insert_eq.
Qed.

Lemma register_lookup_ne (p : Planner) (nid : nat) (obs k : string) :
  k <> obs -> state_nodes (register p nid obs) !! k = state_nodes p !! k.
Proof.
  intros Hne. unfold register. simpl.
  rewrite lookup_insert_ne by done.
  destruct (state_nodes p !! obs); [done|]. by rewrite lookup_insert_ne.
Qed.

Lemma state_leaves_elem (p : Planner) (obs : string) (sl : list nat) (nd : nat) :
  state_leaves p obs = Ret sl ->
  nd ∈ sl <-> registered p obs nd /\ frontier_node p nd.
Proof.
  unfold state_leaves, getitem, registered, frontier_node.
  destruct (state_nodes p !! obs) as [nodes|] eqn:E; simpl; [|discriminate].
  intros H. inversion H; subst. clear H.
  rewrite list_elem_of_In, filter_In, andb_true_iff, mem_elem, <- list_elem_of_In.
  split.
  - intros (Hin & Hc & Hm). split; [eauto|]. split; [|done].
    by destruct (children (node p nd)).
  - intros ((nodes' & Hn & Hin) & Hc & Hm). inversion Hn; subst.
    split; [done|]. split; [|done]. by rewrite Hc.
Qed.

(** ** run *)

(** C9.  With an empty frontier, one iteration of the search loop raises
    [ValueError] (the maximum of an empty sequence) whatever the expansion
    does, instead of returning. *)
Theorem run_empty_frontier (expand : Planner -> nat -> res Planner)
    (fuel : nat) (p : Planner) :
  leaves p = [] -> run expand fuel p = Raise ValueError.
Proof. intros H. unfold run. rewrite H. reflexivity. Qed.

Lemma run_empty_frontier_witness :
  run (expand_to "B") 3 planner_new = Raise ValueError.
Proof. apply (run_empty_frontier (expand_to "B") 3 planner_new). reflexivity. Defined.

(** ** The pruning step *)

Lemma prune_success_frontier (p p' : Planner) (obs : string) :
  prune p obs = Ret p' -> exists nd, registered p obs nd /\ frontier_node p nd.
Proof.
  unfold prune. destruct (state_leaves p obs) as [sl| |] eqn:Hsl; simpl; try discriminate.
  destruct (max_by _ sl) as [best| |] eqn:Hmax; simpl; try discriminate.
  intros _. apply max_by_elem in Hmax. exists best.
  by apply (state_leaves_elem _ _ _ _ Hsl).
Qed.

Lemma prune_no_frontier (p : Planner) (obs : string) (nodes : list nat) :
  state_nodes p !! obs = Some nodes ->
  (forall nd, nd ∈ nodes -> ~ frontier_node p nd) ->
  prune p obs = Raise ValueError.
Proof.
  intros Hn Hnone. unfold prune.
  destruct (state_leaves p obs) as [sl| |] eqn:Hsl.
  - destruct sl as [|nd sl]; [reflexivity|]. exfalso.
    assert (Hin : nd ∈ nd :: sl) by left.
    apply (state_leaves_elem _ _ _ _ Hsl) in Hin as [(nodes' & Hn' & Hin) Hf].
    rewrite Hn in Hn'. inversion Hn'; subst. by apply (Hnone nd).
  - unfold state_leaves, getitem in Hsl. rewrite Hn in Hsl. discriminate.
  - unfold state_leaves, getitem in Hsl. rewrite Hn in Hsl. discriminate.
Qed.

(** ** update *)

Lemma update_value_total (p : Planner) (s : string) (v : Q) :
  gamma (config p) < 1 -> exists p' r, update_value p s v = Ret (p', r).
Proof.
  intros Hg. unfold update_value. rewrite (max_future_lt1 _ Hg). simpl.
  destruct (match state_values p !! s with Some cur => Qltb v cur | None => true end);
    eauto.
Qed.

Lemma max_future_inv (c : Config) (q : Q) :
  max_future c = Ret q -> q = 1 / (1 - gamma c).
Proof.
  unfold max_future. destruct (Qeq_bool (1 - gamma c) 0); [discriminate|].
  intros H. by inversion H.
Qed.

Lemma registered_state_frame (p : Planner) (nid : nat) (r : Q) (d : bool) (v : Q)
    (obs : string) :
  let p3 := registered_state p nid r d v obs in
  config p3 = config p /\ leaves p3 = leaves p
  /\ state_values p3 = state_values p
  /\ (forall nd, children (node p3 nd) = children (node p nd))
  /\ state_nodes p3 !! obs = Some (default [] (state_nodes p !! obs) ++ [nid])%list
  /\ (forall k, k <> obs -> state_nodes p3 !! k = state_nodes p !! k).
Proof.
  unfold registered_state. cbv zeta.
  set (n1 := mkNode _ _ r v _ d _). set (p1 := set_node p nid n1).
  set (p2 := set_node p1 nid _).
  repeat split.
  - intros nd. change (node (register p2 nid obs) nd) with (node p2 nd).
    unfold p2. rewrite children_set_node by done.
    unfold p1. by rewrite children_set_node.
  - by rewrite register_lookup.
  - intros k Hk. by rewrite register_lookup_ne.
Qed.

Lemma registered_state_done (p : Planner) (nid : nat) (r : Q) (d : bool) (v : Q)
    (obs : string) :
  (nid < length (heap p))%nat ->
  done (node (registered_state p nid r d v obs) nid) = d.
Proof.
  intros Hlt. unfold registered_state. cbv zeta.
  set (n1 := mkNode _ _ r v _ d _). set (p1 := set_node p nid n1).
  change (node (register ?q nid obs) nid) with (node q nid).
  assert (H1 : node p1 nid = n1).
  { unfold p1. rewrite node_set_node. by rewrite decide_True. }
  rewrite node_set_node, decide_True.
  - by rewrite H1.
  - split; [done|]. unfold p1, set_node. simpl. by rewrite length_insert.
Qed.

Lemma prune_frame (p p' : Planner) (obs : string) :
  prune p obs = Ret p' ->
  config p' = config p /\ heap p' = heap p /\ state_nodes p' = state_nodes p
  /\ state_values p' = state_values p.
Proof.
  unfold prune. destruct (state_leaves p obs) as [sl| |]; simpl; try discriminate.
  destruct (max_by _ sl) as [best| |]; simpl; try discriminate.
  destruct (remove_suboptimal best sl (leaves p)) as [lv| |]; simpl; try discriminate.
  intros H. by inversion H.
Qed.

Section Update.

Variable accumulate : Planner -> nat -> Q -> res Q.

(** The steps of a successful [update]. *)
Lemma update_inv (p p' : Planner) (nid : nat) (r : Q) (d : bool) (obs : string) :
  update accumulate p nid r d obs = Ret p' ->
  exists v p4 u dl,
    let p3 := registered_state p nid r d v obs in
    accumulate p nid r = Ret v
    /\ (done (node p3 nid) = false -> gamma (config p) < 1 \/ 1 < gamma (config p))
    /\ update_value p3 obs (future_value_ucb (config p) (done (node p3 nid)))
       = Ret (p4, (u, dl))
    /\ (if prune_suboptimal_leaves (config p) then prune p4 obs = Ret p'
        else p' = p4).
Proof.
  unfold update, base_update. intros H.
  destruct (accumulate p nid r) as [v| |] eqn:Hacc; simpl in H; try discriminate.
  fold (registered_state p nid r d v obs) in H.
  set (p3 := registered_state p nid r d v obs) in *.
  assert (Hc : config p3 = config p) by apply registered_state_frame.
  destruct (done (node p3 nid)) eqn:Hd; simpl in H.
  - destruct (update_value p3 obs 0) as [[p4 [u dl]]| |] eqn:Hu; simpl in H;
      try discriminate.
    exists v, p4, u, dl. cbv zeta. fold p3. rewrite Hd.
    destruct (update_value_frame _ _ _ _ _ Hu) as (Hc4 & _).
    rewrite Hc4, Hc in H. repeat split; try done.
    destruct (prune_suboptimal_leaves (config p)); [done | by inversion H].
  - destruct (max_future (config p)) as [q| |] eqn:Hq; simpl in H; try discriminate.
    pose proof (max_future_inv _ _ Hq) as ->.
    destruct (update_value p3 obs _) as [[p4 [u dl]]| |] eqn:Hu; simpl in H;
      try discriminate.
    exists v, p4, u, dl. cbv zeta. fold p3. rewrite Hd.
    destruct (update_value_frame _ _ _ _ _ Hu) as (Hc4 & _).
    rewrite Hc4, Hc in H. repeat split; try done.
    + intros _. unfold max_future in Hq.
      destruct (Qeq_bool (1 - gamma (config p)) 0) eqn:E; [discriminate|].
      apply Qeq_bool_neq in E.
      destruct (Q_dec (gamma (config p)) 1) as [[?|?]|?]; [by left|by right|].
      exfalso. apply E. lra.
    + destruct (prune_suboptimal_leaves (config p)); [done | by inversion H].
Qed.

End Update.

Lemma frontier_node_ext (p q : Planner) (nd : nat) :
  children (node q nd) = children (node p nd) -> leaves q = leaves p ->
  frontier_node q nd <-> frontier_node p nd.
Proof. unfold frontier_node. intros -> ->. done. Qed.

(** C10.  The pruning step returns only if some node registered under the
    state is childless and in the frontier; when no registered node is, it
    raises [ValueError], the error of the maximum of an empty sequence.  In
    particular [update] with pruning enabled raises [ValueError] when neither
    the updated node nor any node already registered under its state is a
    childless member of the frontier. *)
Theorem prune_needs_frontier_node
    (accumulate : Planner -> nat -> Q -> res Q) (p : Planner) (obs : string) :
  (forall p', prune p obs = Ret p' ->
     exists nd, registered p obs nd /\ frontier_node p nd)
  /\ (forall nodes, state_nodes p !! obs = Some nodes ->
        (forall nd, nd ∈ nodes -> ~ frontier_node p nd) ->
        prune p obs = Raise ValueError)
  /\ (forall nid r d v,
        prune_suboptimal_leaves (config p) = true ->
        gamma (config p) < 1 ->
        accumulate p nid r = Ret v ->
        ~ frontier_node p nid ->
        (forall nd, registered p obs nd -> ~ frontier_node p nd) ->
        update accumulate p nid r d obs = Raise ValueError).
Proof.
  split; [|split].
  - intros p'. apply prune_success_frontier.
  - intros nodes. apply prune_no_frontier.
  - intros nid r d v Hprune Hg Hacc Hself Hothers.
    unfold update, base_update. rewrite Hacc. simpl.
    fold (registered_state p nid r d v obs).
    set (p3 := registered_state p nid r d v obs).
    destruct (registered_state_frame p nid r d v obs)
      as (Hc & Hl & Hv & Hch & Hreg & _). fold p3 in Hc, Hl, Hv, Hch, Hreg.
    assert (Hfut : exists est,
      (if negb (done (node p3 nid)) then max_future (config p) else Ret 0) = Ret est).
    { destruct (done (node p3 nid)); simpl; [eauto|].
      rewrite (max_future_lt1 _ Hg). eauto. }
    destruct Hfut as [est ->]. simpl.
    destruct (update_value_total p3 obs est) as (p4 & [u dl] & Hu);
      [by rewrite Hc|].
    rewrite Hu. simpl.
    destruct (update_value_frame _ _ _ _ _ Hu) as (Hc4 & Hh4 & _ & Hn4 & Hl4).
    rewrite Hc4, Hc, Hprune.
    apply (prune_no_frontier _ _ (default [] (state_nodes p !! obs) ++ [nid])%list).
    + by rewrite Hn4.
    + intros nd Hin Hf.
      assert (Hf' : frontier_node p nd).
      { apply (frontier_node_ext p p4 nd); [|congruence|done].
        unfold node. rewrite Hh4. apply Hch. }
      apply elem_of_app in Hin as [Hin|Hin].
      * destruct (state_nodes p !! obs) as [old|] eqn:Hold; [|inversion Hin].
        apply (Hothers nd); [|done]. exists old. by split.
      * apply list_elem_of_singleton in Hin as ->. by apply Hself.
Qed.

Lemma prune_needs_frontier_node_witness :
  prune planner_new "A" = Raise KeyError
  /\ (exists nd, registered planner_planned "A" nd /\ frontier_node planner_planned nd)
  /\ prune (set_leaves planner_planned []) "A" = Raise ValueError
  /\ update accumulate_ex (set_leaves planner_unseen []) 1 0 false "B"
     = Raise ValueError.
Proof.
  split; [reflexivity|].
  destruct (prune_needs_frontier_node accumulate_ex planner_planned "A") as (H1 & _ & _).
  destruct (prune_needs_frontier_node accumulate_ex (set_leaves planner_planned []) "A")
    as (_ & H2 & _).
  destruct (prune_needs_frontier_node accumulate_ex (set_leaves planner_unseen []) "B")
    as (_ & _ & H3).
  split; [|split].
  - apply (H1 planner_planned). reflexivity.
  - apply (H2 [O]); [reflexivity|].
    intros nd _ [_ Hin]. inversion Hin.
  - apply (H3 1%nat 0 false (Qred (0 + (1#2) ^ (1 - 1) * 0))).
    + reflexivity.
    + vm_compute; reflexivity.
    + reflexivity.
    + intros [_ Hin]. inversion Hin.
    + intros nd _ [_ Hin]. inversion Hin.
Defined.

(** C8, counterexample.  The state ["A"] is present with bound 2 when a
    second node reaches it with [done = true]: the default estimate is then
    0, which is below 2, and the stored bound changes from 2 to 0. *)
Lemma update_seen_terminal_counterexample :
  state_values planner_unseen !! "A" = Some 2
  /\ exists p', update accumulate_ex planner_unseen 1 0 true "A" = Ret p'
                /\ state_values p' !! "A" = Some 0
                /\ state_values p' !! "A" <> state_values planner_unseen !! "A".
Proof.
  split; [reflexivity|]. eexists. split; [vm_compute; reflexivity|].
  split; [reflexivity|]. vm_compute. discriminate.
Qed.

(** C8, as amended.  When [update] runs on a state that is already present
    with bound [b], the registry afterwards holds the smaller of [b] and the
    default estimate (0 if done, else [1/(1-gamma)]).  The bound is therefore
    unchanged when the transition is not terminal and [b] is at most
    [1/(1-gamma)], and it drops to 0 when the transition is terminal and [b]
    is positive. *)
Theorem update_tighten_seen (accumulate : Planner -> nat -> Q -> res Q)
    (p p' : Planner) (nid : nat) (r : Q) (d : bool) (obs : string) (b : Q) :
  (nid < length (heap p))%nat ->
  state_values p !! obs = Some b ->
  update accumulate p nid r d obs = Ret p' ->
  let est := future_value_ucb (config p) d in
  state_values p' !! obs = Some (if Qltb est b then est else b)
  /\ (d = false -> b <= 1 / (1 - gamma (config p)) ->
      state_values p' !! obs = Some b)
  /\ (d = true -> 0 < b -> state_values p' !! obs = Some 0).
Proof.
  intros Hlt Hb Hup est.
  assert (Hmain : state_values p' !! obs = Some (if Qltb est b then est else b)).
  { apply update_inv in Hup as (v & p4 & u & dl & Hacc & _ & Hu & Hpr).
    rewrite (registered_state_done _ _ _ _ _ _ Hlt) in Hu. fold est in Hu.
    destruct (registered_state_frame p nid r d v obs) as (_ & _ & Hv & _).
    assert (Hv4 : state_values p4 !! obs = Some (if Qltb est b then est else b)).
    { apply update_value_inv in Hu as [(_ & -> & cur & Hcur & Hle)|(_ & -> & _ & Hall)].
      - rewrite Hv, Hb in Hcur. inversion Hcur; subst cur.
        apply Qltb_ge in Hle. by rewrite Hle, Hv.
      - rewrite Hv in Hall. specialize (Hall b Hb). apply Qltb_lt in Hall.
        rewrite Hall. simpl. apply lookup_insert_eq. }
    destruct (prune_suboptimal_leaves (config p)).
    - apply prune_frame in Hpr as (_ & _ & _ & ->). done.
    - by subst p'. }
  split; [done|]. split.
  - intros -> Hle. rewrite Hmain. unfold est, future_value_ucb.
    apply Qltb_ge in Hle. by rewrite Hle.
  - intros -> Hpos. rewrite Hmain. unfold est, future_value_ucb.
    apply Qltb_lt in Hpos. by rewrite Hpos.
Qed.

Lemma update_tighten_seen_witness :
  exists p', update accumulate_ex planner_unseen 1 0 false "A" = Ret p'
    /\ state_values p' !! "A"
       = Some (if Qltb (future_value_ucb cfg_half false) 2
               then future_value_ucb cfg_half false else 2).
Proof.
  eexists. split; [vm_compute; reflexivity|].
  refine (proj1 (update_tighten_seen accumulate_ex planner_unseen _ 1%nat 0 false
                   "A" 2 _ _ _)).
  - vm_compute. lia.
  - reflexivity.
  - vm_compute. reflexivity.
Defined.

(** ** backup_to_root: what every call preserves *)

Section BackupInvariant.

(** A relation between planners that every [update_value] establishes and
    that composes holds between the planner before and after a backup. *)
Variable R : Planner -> Planner -> Prop.
Hypothesis R_refl : forall p, R p p.
Hypothesis R_trans : forall p q r, R p q -> R q r -> R p r.
Hypothesis R_update_value :
  forall p s v p' r, update_value p s v = Ret (p', r) -> R p p'.

Lemma backup_aggregated_rel (rec : Planner -> nat -> res (Planner * nat))
    (self : nat) :
  (forall p n p' c, rec p n = Ret (p', c) -> R p p') ->
  forall nodes p p' c,
    backup_aggregated rec self p nodes = Ret (p', c) -> R p p'.
Proof.
  intros Hrec. induction nodes as [|nd rest IH]; intros p p' c H; simpl in H.
  - inversion H; subst. apply R_refl.
  - destruct (if negb (nd =? self)%nat
              then match parent (node p nd) with
                   | Some par => rec p par
                   | None => Ret (p, O)
                   end
              else Ret (p, O)) as [[p1 c1]| |] eqn:Hstep; simpl in H;
      try discriminate.
    destruct (backup_aggregated rec self p1 rest) as [[p2 c2]| |] eqn:Hrest;
      simpl in H; try discriminate.
    inversion H; subst. apply (R_trans _ p1); [|by eapply IH].
    destruct (negb (nd =? self)%nat).
    + destruct (parent (node p nd)); [by eapply Hrec|].
      inversion Hstep; subst. apply R_refl.
    + inversion Hstep; subst. apply R_refl.
Qed.

Lemma backup_to_root_rel (fuel : nat) :
  forall p nid p' c, backup_to_root fuel p nid = Ret (p', c) -> R p p'.
Proof.
  induction fuel as [|fuel IH]; intros p nid p' c H; simpl in H; [discriminate|].
  destruct (children (node p nid)) as [|ch chs].
  { inversion H; subst. apply R_refl. }
  destruct (max_by _ _) as [best| |]; simpl in H; try discriminate.
  destruct (getitem _ _) as [b| |]; simpl in H; try discriminate.
  destruct (update_value p _ _) as [[p1 [u dl]]| |] eqn:Hu; simpl in H;
    try discriminate.
  apply R_update_value in Hu.
  destruct (u && Qltb (stopping_accuracy (config p1)) dl).
  - unfold propagate in H.
    destruct (match parent (node p nid) with
              | Some par => backup_to_root fuel p1 par
              | None => Ret (p1, O)
              end) as [[p2 c1]| |] eqn:Hpar; simpl in H; try discriminate.
    assert (R12 : R p1 p2).
    { destruct (parent (node p nid)); [by eapply IH|].
      inversion Hpar; subst. apply R_refl. }
    destruct (backup_aggregated_nodes (config p2)).
    + destruct (getitem _ _) as [nodes| |]; simpl in H; try discriminate.
      destruct (backup_aggregated _ nid p2 nodes) as [[p3 c2]| |] eqn:Hagg;
        simpl in H; try discriminate.
      inversion H; subst.
      apply (R_trans _ p1); [done|]. apply (R_trans _ p2); [done|].
      eapply backup_aggregated_rel; [|exact Hagg]. apply IH.
    + inversion H; subst. by apply (R_trans _ p1).
  - inversion H; subst. done.
Qed.

End BackupInvariant.

Lemma same_tree_refl (p : Planner) : same_tree p p.
Proof. by repeat split. Qed.

Lemma same_tree_trans (p q r : Planner) :
  same_tree p q -> same_tree q r -> same_tree p r.
Proof.
  intros (H1 & H2 & H3 & H4 & H5) (K1 & K2 & K3 & K4 & K5).
  repeat split; congruence.
Qed.

Lemma backup_to_root_same_tree (fuel : nat) (p p' : Planner) (nid c : nat) :
  backup_to_root fuel p nid = Ret (p', c) -> same_tree p p'.
Proof.
  apply (backup_to_root_rel same_tree same_tree_refl same_tree_trans).
  intros q s v q' r. apply update_value_frame.
Qed.

(** ** Monotone bounds *)

Lemma bounds_nonincreasing_refl (p : Planner) : bounds_nonincreasing p p.
Proof. intros k b Hb. exists b. split; [done | by left]. Qed.

Lemma bounds_nonincreasing_trans (p q r : Planner) :
  bounds_nonincreasing p q -> bounds_nonincreasing q r ->
  bounds_nonincreasing p r.
Proof.
  intros H1 H2 k b Hb.
  destruct (H1 k b Hb) as (b1 & Hb1 & Hle1).
  destruct (H2 k b1 Hb1) as (b2 & Hb2 & Hle2).
  exists b2. split; [done|].
  destruct Hle1 as [->|Hlt1]; [done|]. right.
  destruct Hle2 as [->|Hlt2]; [done|]. lra.
Qed.

Lemma update_value_nonincreasing (p p' : Planner) (s : string) (v : Q)
    (r : bool * Q) :
  update_value p s v = Ret (p', r) -> bounds_nonincreasing p p'.
Proof.
  destruct r as [u dl]. intros H.
  apply update_value_inv in H as [(_ & -> & _)|(_ & -> & _ & Hall)].
  - apply bounds_nonincreasing_refl.
  - intros k b Hb. simpl. destruct (decide (k = s)) as [->|Hne].
    + exists v. rewrite lookup_insert_eq. split; [done|]. right. by apply Hall.
    + exists b. rewrite lookup_insert_ne by done. split; [done | by left].
Qed.

Lemma plan_init_inv (p p' : Planner) (obs : string) :
  plan_init p obs = Ret p' ->
  exists dflt,
    p' = set_state_values
           (set_state_nodes
              (set_node p (root p) (set_observation (node p (root p)) obs))
              (<[obs := [root p]]> (state_nodes p)))
           (<[obs := dflt]> (state_values p)).
Proof.
  unfold plan_init. simpl.
  destruct (max_future (config p)) as [dflt| |]; simpl; try discriminate.
  intros [= <-]. by exists dflt.
Qed.

Lemma plan_init_bound (p : Planner) (obs : string) :
  gamma (config p) < 1 ->
  exists p', plan_init p obs = Ret p'
             /\ state_values p' !! obs = Some (1 / (1 - gamma (config p))).
Proof.
  intros Hg. unfold plan_init. simpl. rewrite (max_future_lt1 _ Hg). simpl.
  eexists. split; [reflexivity|]. simpl. apply lookup_insert_eq.
Qed.

(** C2, as amended.  [update_value], [update] and [backup_to_root] never
    replace a bound that is present by anything but a strictly smaller
    value, so across them the bound of every state is non-increasing.
    [plan] is different: it sets the bound of the root's state to
    [1/(1-gamma)] whatever was stored for it. *)
Theorem bounds_monotone (accumulate : Planner -> nat -> Q -> res Q) :
  (forall p s v p' r, update_value p s v = Ret (p', r) ->
     bounds_nonincreasing p p')
  /\ (forall p nid r d obs p', update accumulate p nid r d obs = Ret p' ->
        bounds_nonincreasing p p')
  /\ (forall fuel p nid p' c, backup_to_root fuel p nid = Ret (p', c) ->
        bounds_nonincreasing p p')
  /\ (forall p obs, gamma (config p) < 1 ->
        exists p', plan_init p obs = Ret p'
                   /\ state_values p' !! obs = Some (1 / (1 - gamma (config p)))).
Proof.
  split; [|split; [|split]].
  - intros p s v p' r. apply update_value_nonincreasing.
  - intros p nid r d obs p' H.
    apply update_inv in H as (v & p4 & u & dl & _ & _ & Hu & Hpr).
    apply update_value_nonincreasing in Hu.
    destruct (registered_state_frame p nid r d v obs) as (_ & _ & Hv & _).
    assert (H4 : bounds_nonincreasing p p4).
    { intros k b Hb. apply Hu. by rewrite Hv. }
    destruct (prune_suboptimal_leaves (config p)).
    + apply prune_frame in Hpr as (_ & _ & _ & Hv').
      intros k b Hb. rewrite Hv'. by apply H4.
    + by subst p'.
  - intros fuel.
    apply (backup_to_root_rel bounds_nonincreasing bounds_nonincreasing_refl
             bounds_nonincreasing_trans).
    intros p s v p' r. apply update_value_nonincreasing.
  - apply plan_init_bound.
Qed.

Lemma bounds_monotone_witness :
  bounds_nonincreasing planner_planned planner_tightened
  /\ (exists p', update accumulate_ex planner_unseen 1 0 true "A" = Ret p'
                 /\ bounds_nonincreasing planner_unseen p')
  /\ (exists p' c, backup_to_root 9 (with_accuracy planner_cycle (1#100)) 1
                   = Ret (p', c)
                   /\ bounds_nonincreasing (with_accuracy planner_cycle (1#100)) p')
  /\ exists p', plan_init planner_tightened "A" = Ret p'
                /\ state_values p' !! "A"
                   = Some (1 / (1 - gamma (config planner_tightened))).
Proof.
  destruct (bounds_monotone accumulate_ex) as (H1 & H2 & H3 & H4).
  split; [|split; [|split]].
  - apply (H1 planner_planned "A" 0 planner_tightened (true, 2 - 0)).
    reflexivity.
  - eexists. split; [vm_compute; reflexivity|].
    apply (H2 planner_unseen 1%nat 0 true "A"). vm_compute. reflexivity.
  - eexists. eexists. split; [vm_compute; reflexivity|].
    apply (H3 9%nat (with_accuracy planner_cycle (1#100)) 1%nat _ 9%nat).
    vm_compute. reflexivity.
  - apply (H4 planner_tightened "A"). vm_compute. reflexivity.
Defined.

(** C2, counterexample.  The planner plans for ["A"], which sets the bound of
    ["A"] to 2, and runs one iteration of the search loop, whose backup
    lowers that bound to [0 + 1/2 * 2].  Planning for ["A"] again puts the
    bound back to 2: the bound of ["A"] increases. *)
Lemma plan_resets_bound_counterexample :
  plan_init planner_rooted "A" = Ret planner_planned
  /\ run (expand_to "B") 2 planner_planned = Ret (planner_one_expansion, 1%nat)
  /\ state_values planner_one_expansion !! "A" = Some (0 + (1#2) * 2)
  /\ exists p', plan_init planner_one_expansion "A" = Ret p'
                /\ state_values p' !! "A" = Some 2
                /\ 0 + (1#2) * 2 < 2
                /\ ~ bounds_nonincreasing planner_one_expansion p'.
Proof.
  split; [reflexivity|]. split; [vm_compute; reflexivity|]. split; [reflexivity|].
  eexists. split; [reflexivity|]. split; [reflexivity|].
  split; [vm_compute; reflexivity|].
  intros H. destruct (H "A" (0 + (1#2) * 2)) as (b' & Hb' & Hle); [reflexivity|].
  vm_compute in Hb'. inversion Hb'; subst b'.
  destruct Hle as [Heq|Hlt]; [discriminate|]. vm_compute in Hlt. discriminate.
Qed.

(** ** backup_to_root: when it propagates *)

Lemma backup_to_root_counts (fuel : nat) (p p' : Planner) (nid c : nat) :
  children (node p nid) <> [] ->
  backup_to_root fuel p nid = Ret (p', c) -> (1 <= c)%nat.
Proof.
  intros Hch H. destruct fuel as [|fuel]; simpl in H; [discriminate|].
  destruct (children (node p nid)) as [|ch chs]; [done|].
  destruct (max_by _ _) as [best| |]; simpl in H; try discriminate.
  destruct (getitem _ _) as [b| |]; simpl in H; try discriminate.
  destruct (update_value p _ _) as [[p1 [u dl]]| |]; simpl in H; try discriminate.
  destruct (u && Qltb (stopping_accuracy (config p1)) dl).
  - unfold propagate in H.
    destruct (match parent (node p nid) with
              | Some par => backup_to_root fuel p1 par
              | None => Ret (p1, O)
              end) as [[p2 c1]| |]; simpl in H; try discriminate.
    destruct (backup_aggregated_nodes (config p2)).
    + destruct (getitem _ _) as [nodes| |]; simpl in H; try discriminate.
      destruct (backup_aggregated _ nid p2 nodes) as [[p3 c2]| |];
        simpl in H; try discriminate.
      inversion H. lia.
    + inversion H. lia.
  - inversion H. lia.
Qed.

(** One unfolding of [backup_to_root] on a node with children, given the
    best child and the answer of [update_value]. *)
Lemma backup_to_root_step (fuel : nat) (p : Planner) (nid best : nat) (b : Q)
    (p1 : Planner) (u : bool) (dl : Q) :
  children (node p nid) <> [] ->
  max_by (fun c => get_value_upper_bound p (node p c))
         (map snd (children (node p nid))) = Ret best ->
  state_values p !! observation (node p best) = Some b ->
  update_value p (observation (node p nid))
               (reward (node p best) + gamma (config p) * b)
  = Ret (p1, (u, dl)) ->
  backup_to_root (S fuel) p nid
  = if u && Qltb (stopping_accuracy (config p)) dl
    then propagate (backup_to_root fuel) nid (node p nid) p1
    else Ret (p1, 1%nat).
Proof.
  intros Hch Hmax Hb Hu.
  destruct (update_value_frame _ _ _ _ _ Hu) as (Hc1 & _).
  simpl. destruct (children (node p nid)) as [|ch chs]; [done|].
  rewrite Hmax. simpl. unfold getitem. rewrite Hb. simpl.
  rewrite Hu. simpl. by rewrite Hc1.
Qed.



(** ** Pruning *)

Lemma remove_first_spec (x : nat) (l l' : list nat) :
  remove_first x l = Ret l' -> NoDup l ->
  NoDup l' /\ forall y, y ∈ l' <-> y ∈ l /\ y <> x.
Proof.
  revert l'. induction l as [|z l IH]; intros l' H Hnd; simpl in H; [discriminate|].
  apply NoDup_cons in Hnd as [Hz Hnd].
  destruct (Nat.eqb_spec x z) as [->|Hne].
  - inversion H; subst. split; [done|]. intros y. rewrite elem_of_cons. split.
    + intros Hy. split; [by right|]. intros ->. done.
    + intros [[->|Hy] Hne]; done.
  - destruct (remove_first x l) as [l''| |]; simpl in H; try discriminate.
    inversion H; subst. destruct (IH l'' eq_refl Hnd) as [Hnd' Hiff].
    split.
    + apply NoDup_cons. split; [|done]. intros Hin. apply Hiff in Hin as [Hin _]. done.
    + intros y. rewrite !elem_of_cons, Hiff. split.
      * intros [->|[Hy Hyx]]; split; auto.
      * intros [[->|Hy] Hyx]; auto.
Qed.

Lemma remove_suboptimal_spec (best : nat) (sl lv lv' : list nat) :
  remove_suboptimal best sl lv = Ret lv' -> NoDup lv ->
  NoDup lv' /\ forall y, y ∈ lv' <-> y ∈ lv /\ (y = best \/ y ∉ sl).
Proof.
  revert lv lv'. induction sl as [|nd rest IH]; intros lv lv' H Hnd; simpl in H.
  - inversion H; subst. split; [done|]. intros y. split.
    + intros Hy. split; [done|]. right. apply not_elem_of_nil.
    + by intros [Hy _].
  - destruct (Nat.eqb_spec nd best) as [->|Hne].
    + destruct (IH _ _ H Hnd) as [Hnd' Hiff]. split; [done|].
      intros y. rewrite Hiff, not_elem_of_cons. split.
      * intros [Hy [->|Hn]]; split; auto.
        destruct (decide (y = best)); auto.
      * intros [Hy [->|[_ Hn]]]; auto.
    + destruct (remove_first nd lv) as [lv1| |] eqn:Hrm; simpl in H; try discriminate.
      destruct (remove_first_spec _ _ _ Hrm Hnd) as [Hnd1 Hiff1].
      destruct (IH _ _ H Hnd1) as [Hnd' Hiff]. split; [done|].
      intros y. rewrite Hiff, Hiff1, not_elem_of_cons. split.
      * intros [[Hy Hyn] [->|Hn]]; split; auto.
      * intros [Hy [->|[Hyn Hn]]]; split; auto.
Qed.

Lemma get_value_upper_bound_ext (p q : Planner) (n : Node) :
  config q = config p -> state_values q = state_values p ->
  get_value_upper_bound q n = get_value_upper_bound p n.
Proof. unfold get_value_upper_bound. by intros -> ->. Qed.

(** What a successful pruning step leaves behind. *)
Lemma prune_spec (p p' : Planner) (obs : string) :
  prune p obs = Ret p' -> NoDup (leaves p) ->
  NoDup (leaves p')
  /\ (forall y, y ∈ leaves p' -> y ∈ leaves p)
  /\ exists best kb,
       registered p obs best /\ frontier_node p best /\ best ∈ leaves p'
       /\ get_value_upper_bound p (node p best) = Ret kb
       /\ (forall nd, registered p obs nd -> frontier_node p nd ->
             nd ∈ leaves p' -> nd = best)
       /\ (forall nd, registered p obs nd -> frontier_node p nd ->
             exists k, get_value_upper_bound p (node p nd) = Ret k /\ k <= kb).
Proof.
  unfold prune. intros H Hnd.
  destruct (state_leaves p obs) as [sl| |] eqn:Hsl; simpl in H; try discriminate.
  destruct (max_by _ sl) as [best| |] eqn:Hmax; simpl in H; try discriminate.
  destruct (remove_suboptimal best sl (leaves p)) as [lv| |] eqn:Hrm; simpl in H;
    try discriminate.
  inversion H; subst p'. simpl. clear H.
  destruct (remove_suboptimal_spec _ _ _ _ Hrm Hnd) as [Hnd' Hiff].
  pose proof (max_by_elem _ _ _ Hmax) as Hbest.
  destruct (max_by_maximal _ _ _ Hmax) as (kb & Hkb & Hall).
  pose proof (proj1 (state_leaves_elem _ _ _ best Hsl) Hbest) as [Hreg Hfr].
  split; [done|]. split; [intros y Hy; by apply Hiff in Hy as [? _]|].
  exists best, kb. repeat split; try done.
  - apply Hfr.
  - apply Hfr.
  - apply Hiff. split; [apply Hfr | by left].
  - intros nd Hr Hf Hin. apply Hiff in Hin as [_ [->|Hn]]; [done|].
    exfalso. apply Hn. by apply (state_leaves_elem _ _ _ nd Hsl).
  - intros nd Hr Hf. apply Hall. by apply (state_leaves_elem _ _ _ nd Hsl).
Qed.

Section Pruning.

Variable accumulate : Planner -> nat -> Q -> res Q.

Lemma update_prune_spec (p p' : Planner) (nid : nat) (r : Q) (d : bool)
    (obs : string) :
  prune_suboptimal_leaves (config p) = true ->
  NoDup (leaves p) ->
  update accumulate p nid r d obs = Ret p' ->
  config p' = config p
  /\ NoDup (leaves p')
  /\ (forall y, y ∈ leaves p' -> y ∈ leaves p)
  /\ (forall nd, children (node p' nd) = children (node p nd))
  /\ (forall k, k <> obs -> state_nodes p' !! k = state_nodes p !! k)
  /\ unique_frontier p' obs
  /\ exists best kb,
       registered p' obs best /\ frontier_node p' best
       /\ get_value_upper_bound p' (node p' best) = Ret kb
       /\ (forall nd, registered p' obs nd -> children (node p' nd) = [] ->
             nd ∈ leaves p ->
             exists k, get_value_upper_bound p' (node p' nd) = Ret k /\ k <= kb).
Proof.
  intros Hprune Hnd Hup.
  apply update_inv in Hup as (v & p4 & u & dl & _ & _ & Hu & Hpr).
  rewrite Hprune in Hpr.
  destruct (registered_state_frame p nid r d v obs)
    as (Hc3 & Hl3 & _ & Hch3 & _ & Hne3).
  destruct (update_value_frame _ _ _ _ _ Hu) as (Hc4 & Hh4 & _ & Hn4 & Hl4).
  destruct (prune_frame _ _ _ Hpr) as (Hc' & Hh' & Hn' & Hv').
  assert (Hl : leaves p4 = leaves p) by congruence.
  destruct (prune_spec _ _ _ Hpr) as (Hnd' & Hsub & best & kb & Hreg & Hfr & Hin
                                      & Hkb & Huniq & Hmax);
    [by rewrite Hl|].
  assert (Hnode : forall nd, node p' nd = node p4 nd)
    by (intros nd; unfold node; by rewrite Hh').
  assert (Hregd : forall nd, registered p' obs nd <-> registered p4 obs nd)
    by (intros nd; unfold registered; by rewrite Hn').
  assert (Hgv : forall n, get_value_upper_bound p' n = get_value_upper_bound p4 n)
    by (intros n; by apply get_value_upper_bound_ext).
  split; [congruence|]. split; [done|].
  split; [intros y Hy; rewrite <- Hl; by apply Hsub|].
  split.
  { intros nd. rewrite Hnode. unfold node. rewrite Hh4. apply Hch3. }
  split.
  { intros k Hk. rewrite Hn', Hn4. by apply Hne3. }
  assert (Hfront : forall nd, frontier_node p' nd ->
                              frontier_node p4 nd /\ nd ∈ leaves p').
  { intros nd [Hc Hi]. rewrite Hnode in Hc. repeat split; auto. }
  split.
  { intros x y Hx Hfx Hy Hfy.
    apply Hregd in Hx, Hy. apply Hfront in Hfx as [Hfx Hix], Hfy as [Hfy Hiy].
    rewrite (Huniq x), (Huniq y); done. }
  exists best, kb.
  split; [by apply Hregd|].
  split; [split; [rewrite Hnode; apply Hfr | done]|].
  split; [by rewrite Hgv, Hnode|].
  intros nd Hr Hc Hi. rewrite Hgv, Hnode. apply Hmax; [by apply Hregd|].
  split; [by rewrite <- Hnode | by rewrite Hl].
Qed.

Lemma planner_step_config (p p' : Planner) :
  planner_step accumulate p p' -> config p' = config p.
Proof.
  intros [q nid r d obs q' H|fuel q nid q' c H|q|q obs q' H
          |q q' [q0 nid lv H|q0 nid Hn Hr]]; try done.
  - apply update_inv in H as (v & p4 & u & dl & _ & _ & Hu & Hpr).
    destruct (registered_state_frame q nid r d v obs) as (Hc3 & _).
    destruct (update_value_frame _ _ _ _ _ Hu) as (Hc4 & _).
    destruct (prune_suboptimal_leaves (config q)).
    + apply prune_frame in Hpr as (-> & _). congruence.
    + subst q'. congruence.
  - by apply backup_to_root_same_tree in H as (-> & _).
  - by apply plan_init_inv in H as (dflt & ->).
Qed.

Lemma planner_step_invariant (p p' : Planner) :
  prune_suboptimal_leaves (config p) = true ->
  pruning_invariant p -> planner_step accumulate p p' -> pruning_invariant p'.
Proof.
  intros Hprune [Hnd Hinv] Hstep.
  destruct Hstep as [q nid r d obs q' H|fuel q nid q' c H|q|q obs q' H
                     |q q' [q0 nid lv H|q0 nid Hn Hr]].
  - destruct (update_prune_spec _ _ _ _ _ _ Hprune Hnd H)
      as (_ & Hnd' & Hsub & Hch & Hne & Huniq & _).
    split; [done|]. intros s.
    destruct (decide (s = obs)) as [->|Hs]; [done|].
    intros x y Hx [Hcx Hix] Hy [Hcy Hiy].
    apply (Hinv s); unfold registered, frontier_node in *.
    + by rewrite <- Hne.
    + rewrite <- Hch. auto.
    + by rewrite <- Hne.
    + rewrite <- Hch. auto.
  - apply backup_to_root_same_tree in H as (_ & Hh & _ & Hn & Hl).
    split; [by rewrite Hl|]. intros s x y Hx [Hcx Hix] Hy [Hcy Hiy].
    apply (Hinv s); unfold registered, frontier_node, node in *;
      rewrite <- ?Hh, <- ?Hn, <- ?Hl; auto.
  - split; [apply NoDup_singleton|].
    intros s x y _ [_ Hix] _ [_ Hiy]. simpl in *.
    apply list_elem_of_singleton in Hix, Hiy. congruence.
  - apply plan_init_inv in H as (dflt & ->).
    split; [done|]. intros s x y Hx [Hcx Hix] Hy [Hcy Hiy].
    unfold registered, frontier_node in *. simpl in *.
    change (node (set_state_values ?a ?b) ?n) with (node a n) in *.
    change (node (set_state_nodes ?a ?b) ?n) with (node a n) in *.
    rewrite children_set_node in Hcx, Hcy by done.
    destruct (decide (s = obs)) as [->|Hs].
    + rewrite lookup_insert_eq in Hx, Hy.
      destruct Hx as (? & [= <-] & Hx), Hy as (? & [= <-] & Hy).
      apply list_elem_of_singleton in Hx, Hy. congruence.
    + rewrite lookup_insert_ne in Hx, Hy by done.
      by apply (Hinv s).
  - destruct (remove_first_spec _ _ _ H Hnd) as [Hnd' Hiff].
    split; [done|]. intros s x y Hx [Hcx Hix] Hy [Hcy Hiy]. simpl in *.
    apply Hiff in Hix as [Hix _], Hiy as [Hiy _].
    by apply (Hinv s).
  - split.
    + simpl. apply NoDup_app. split; [done|]. split; [|apply NoDup_singleton].
      intros x Hx Hx'. apply list_elem_of_singleton in Hx' as ->. done.
    + intros s x y Hx [Hcx Hix] Hy [Hcy Hiy]. simpl in *.
      apply elem_of_app in Hix as [Hix|Hix];
        [|apply list_elem_of_singleton in Hix as ->; by destruct (Hr s)].
      apply elem_of_app in Hiy as [Hiy|Hiy];
        [|apply list_elem_of_singleton in Hiy as ->; by destruct (Hr s)].
      by apply (Hinv s).
Qed.

Lemma planner_steps_invariant (p p' : Planner) :
  planner_steps accumulate p p' ->
  prune_suboptimal_leaves (config p) = true ->
  pruning_invariant p -> pruning_invariant p'.
Proof.
  induction 1 as [p|p q r Hstep Hsteps IH]; intros Hprune Hinv; [done|].
  apply IH.
  - by rewrite (planner_step_config _ _ Hstep).
  - by apply (planner_step_invariant p).
Qed.

End Pruning.

Lemma make_root_invariant (p : Planner) : pruning_invariant (fst (make_root p)).
Proof.
  split; [apply NoDup_singleton|].
  intros s x y _ [_ Hix] _ [_ Hiy]. simpl in *.
  apply list_elem_of_singleton in Hix, Hiy. congruence.
Qed.

(** C4.  With pruning enabled, the pruning invariant (a frontier that holds
    every node once, and in which every state has at most one childless
    frontier node registered under it) holds when [make_root] has run, and is
    kept by every sequence of [update] calls, interleaved in any way with
    backups, [plan] and the frontier moves of the expansion.  After each
    [update], the one childless frontier node left under the state of the
    updated node has a maximal [get_value_upper_bound] among the nodes
    registered under that state that were childless and in the frontier when
    the call pruned. *)
Theorem pruning_keeps_one_frontier_node
    (accumulate : Planner -> nat -> Q -> res Q) :
  (forall p, pruning_invariant (fst (make_root p)))
  /\ (forall p p',
        prune_suboptimal_leaves (config p) = true ->
        pruning_invariant p ->
        planner_steps accumulate p p' ->
        pruning_invariant p')
  /\ (forall p nid r d obs p',
        prune_suboptimal_leaves (config p) = true ->
        NoDup (leaves p) ->
        update accumulate p nid r d obs = Ret p' ->
        unique_frontier p' obs
        /\ exists best kb,
             registered p' obs best /\ frontier_node p' best
             /\ get_value_upper_bound p' (node p' best) = Ret kb
             /\ (forall nd, registered p' obs nd ->
                   children (node p' nd) = [] -> nd ∈ leaves p ->
                   exists k, get_value_upper_bound p' (node p' nd) = Ret k
                             /\ k <= kb)).
Proof.
  split; [apply make_root_invariant|]. split.
  - intros p p' Hprune Hinv Hsteps.
    by apply (planner_steps_invariant accumulate p p').
  - intros p nid r d obs p' Hprune Hnd Hup.
    by destruct (update_prune_spec accumulate _ _ _ _ _ _ Hprune Hnd Hup)
      as (_ & _ & _ & _ & _ & Huniq & Hbest).
Qed.

Lemma unregistered_check (p : Planner) (nid : nat) :
  bool_decide (map_Forall (fun _ (l : list nat) => nid ∉ l) (state_nodes p)) = true ->
  forall s, ~ registered p s nid.
Proof.
  intros H s (nodes & Hl & Hin). apply bool_decide_eq_true in H.
  by apply (H s nodes Hl).
Qed.

Lemma planner_expanding_invariant : pruning_invariant planner_expanding.
Proof.
  split.
  - apply NoDup_singleton.
  - intros s x y _ [Hc Hx] _ _. simpl in Hx.
    apply list_elem_of_singleton in Hx as ->. discriminate Hc.
Qed.

Lemma planner_expanding_steps :
  exists p', planner_steps accumulate_ex planner_expanding p'
             /\ leaves p' = [1%nat]
             /\ state_nodes p' !! "B" = Some [1%nat; 2%nat].
Proof.
  eexists. split.
  - eapply steps_cons.
    { apply step_frontier, (frontier_remove planner_expanding O []). reflexivity. }
    eapply steps_cons.
    { apply step_frontier, (frontier_append _ 1%nat).
      - apply not_elem_of_nil.
      - apply unregistered_check. vm_compute. reflexivity. }
    eapply steps_cons.
    { apply (step_update _ _ 1%nat 1 false "B" planner_first_child).
      vm_compute. reflexivity. }
    eapply steps_cons.
    { apply step_frontier, (frontier_append _ 2%nat).
      - intros H. apply list_elem_of_singleton in H. discriminate.
      - apply unregistered_check. vm_compute. reflexivity. }
    eapply steps_cons.
    { eapply (step_update _ _ 2%nat (1#2) false "B"). vm_compute. reflexivity. }
    apply steps_nil.
  - split; reflexivity.
Qed.

Lemma pruning_keeps_one_frontier_node_witness :
  (exists p', planner_steps accumulate_ex planner_expanding p'
              /\ leaves p' = [1%nat] /\ pruning_invariant p')
  /\ (exists p',
        update accumulate_ex planner_second_child 2 (1#2) false "B" = Ret p'
        /\ unique_frontier p' "B"
        /\ exists best kb,
             registered p' "B" best /\ frontier_node p' best
             /\ get_value_upper_bound p' (node p' best) = Ret kb
             /\ (forall nd, registered p' "B" nd ->
                   children (node p' nd) = [] ->
                   nd ∈ leaves planner_second_child ->
                   exists k, get_value_upper_bound p' (node p' nd) = Ret k
                             /\ k <= kb)).
Proof.
  destruct (pruning_keeps_one_frontier_node accumulate_ex) as (_ & H1 & H2).
  split.
  - destruct planner_expanding_steps as (p' & Hs & Hl & _).
    exists p'. split; [done|]. split; [done|].
    apply (H1 planner_expanding p');
      [reflexivity | apply planner_expanding_invariant | done].
  - eexists. split; [vm_compute; reflexivity|].
    apply (H2 planner_second_child 2%nat (1#2) false "B").
    + reflexivity.
    + apply NoDup_cons. split; [|apply NoDup_singleton].
      intros H. apply list_elem_of_singleton in H. discriminate.
    + vm_compute. reflexivity.
Defined.

(** ** Termination of the backup *)

Lemma level_mono (eps lo x y : Q) :
  0 < eps -> x <= y -> (level eps lo x <= level eps lo y)%nat.
Proof.
  intros Heps Hxy. unfold level.
  assert (H : (Qfloor ((x - lo) / eps) <= Qfloor ((y - lo) / eps))%Z).
  { apply Qfloor_resp_le. unfold Qdiv. apply Qmult_le_compat_r; [lra|].
    apply Qlt_le_weak. by apply Qinv_lt_0_compat. }
  lia.
Qed.

Lemma level_drop (eps lo x y : Q) :
  0 < eps -> lo <= x -> eps < y - x -> (level eps lo x < level eps lo y)%nat.
Proof.
  intros Heps Hlo Hgap. unfold level.
  set (a := (x - lo) / eps). set (b := (y - lo) / eps).
  assert (Ha : 0 <= a).
  { unfold a. apply Qle_shift_div_l; [done|]. lra. }
  assert (Hab : a + 1 <= b).
  { assert (Hone : 1 < (y - x) / eps) by (apply Qlt_shift_div_l; [done|lra]).
    assert (Hb : b == a + (y - x) / eps).
    { unfold a, b. field. intros E. rewrite E in Heps. by apply Qlt_irrefl in Heps. }
    rewrite Hb. lra. }
  assert (H0 : (0 <= Qfloor a)%Z).
  { rewrite <- (Qfloor_Z 0). by apply Qfloor_resp_le. }
  assert (H1 : (Qfloor a + 1 <= Qfloor b)%Z).
  { rewrite <- (Qfloor_Z (Qfloor a + 1)). apply Qfloor_resp_le.
    rewrite inject_Z_plus. pose proof (Qfloor_le a). simpl (inject_Z 1).
    change (inject_Z 1) with 1. lra. }
  lia.
Qed.

Lemma sum_list_with_le {A : Type} (f g : A -> nat) (l : list A) :
  (forall x, x ∈ l -> (f x <= g x)%nat) ->
  (sum_list_with f l <= sum_list_with g l)%nat.
Proof.
  induction l as [|x l IH]; intros H; simpl; [lia|].
  pose proof (H x ltac:(left)). pose proof (IH (fun y Hy => H y ltac:(by right))).
  lia.
Qed.

Lemma sum_list_with_lt {A : Type} (f g : A -> nat) (l : list A) (a : A) :
  (forall x, x ∈ l -> (f x <= g x)%nat) -> a ∈ l -> (f a < g a)%nat ->
  (sum_list_with f l < sum_list_with g l)%nat.
Proof.
  induction l as [|x l IH]; intros H Ha Hlt; [inversion Ha|]. simpl.
  pose proof (H x ltac:(left)) as Hx.
  pose proof (sum_list_with_le f g l (fun y Hy => H y ltac:(by right))) as Hl.
  apply elem_of_cons in Ha as [->|Ha]; [lia|].
  pose proof (IH (fun y Hy => H y ltac:(by right)) Ha Hlt). lia.
Qed.

Lemma max_from_ended {A : Type} (key : A -> res Q) (l : list A) (b : A) (kb : Q) :
  (forall x, key x <> NoFuel) -> max_from key b kb l <> NoFuel.
Proof.
  intros Hkey. revert b kb. induction l as [|x l IH]; intros b kb; simpl; [done|].
  destruct (key x) as [k| |] eqn:Hx; simpl; [|done|by destruct (Hkey x)].
  destruct (Qltb kb k); apply IH.
Qed.

Lemma max_by_ended {A : Type} (key : A -> res Q) (l : list A) :
  (forall x, key x <> NoFuel) -> max_by key l <> NoFuel.
Proof.
  intros Hkey. destruct l as [|x l]; simpl; [done|].
  destruct (key x) as [k| |] eqn:Hx; simpl; [|done|by destruct (Hkey x)].
  by apply max_from_ended.
Qed.

Lemma get_value_upper_bound_ended (p : Planner) (n : Node) :
  get_value_upper_bound p n <> NoFuel.
Proof. destruct (get_value_upper_bound_cases p n) as [->|[q ->]]; done. Qed.

Lemma update_value_ended (p : Planner) (s : string) (v : Q) :
  update_value p s v <> NoFuel.
Proof.
  unfold update_value, max_future.
  destruct (match state_values p !! s with Some cur => Qltb v cur | None => true end);
    [|done].
  by destruct (Qeq_bool (1 - gamma (config p)) 0).
Qed.

Lemma ended_bind (P Q : Planner -> Prop) (m : res (Planner * nat))
    (k : Planner * nat -> res (Planner * nat)) :
  ended P m -> (forall p c, P p -> ended Q (k (p, c))) ->
  ended Q (bind m k).
Proof.
  intros Hm Hk. destruct m as [[p c]| |]; simpl in *; [by apply Hk|done|done].
Qed.

Lemma node_key_elem (p : Planner) (nid : nat) :
  observation (node p nid) ∈ node_keys p.
Proof.
  unfold node_keys, node. apply list_elem_of_In, in_map.
  destruct (nth_in_or_default nid (heap p) (fresh_node None 0)) as [H| ->].
  - by right.
  - by left.
Qed.

Section Termination.

Variables (eps lo hi : Q) (ks : list string).
Hypothesis eps_pos : 0 < eps.

Let pot (p : Planner) : nat := potential eps lo hi ks (state_values p).

(** One [update_value] with a candidate in range keeps the bounds in
    range, never raises the measure, and lowers it when it reports an
    improvement above [eps] on one of the states of the tree. *)
Lemma update_value_potential (p p1 : Planner) (s : string) (v : Q)
    (u : bool) (dl : Q) :
  (forall k b, state_values p !! k = Some b -> lo <= b <= hi) ->
  lo <= v <= hi ->
  update_value p s v = Ret (p1, (u, dl)) ->
  (forall k b, state_values p1 !! k = Some b -> lo <= b <= hi)
  /\ (pot p1 <= pot p)%nat
  /\ (u = true -> eps < dl -> s ∈ ks -> (pot p1 < pot p)%nat).
Proof.
  intros Hrange Hv Hu.
  apply update_value_inv in Hu
    as [(-> & -> & _)|(-> & -> & (dflt & _ & ->) & Hall)].
  { split; [done|]. split; [done|]. discriminate. }
  simpl.
  assert (Hkey : forall k,
    (key_potential eps lo hi (<[s := v]> (state_values p)) k
     <= key_potential eps lo hi (state_values p) k)%nat).
  { intros k. unfold key_potential. destruct (decide (k = s)) as [->|Hne].
    - rewrite lookup_insert_eq.
      destruct (state_values p !! s) as [cur|] eqn:Hs.
      + apply level_mono; [done|]. apply Qlt_le_weak. by apply Hall.
      + apply Nat.le_le_succ_r, level_mono; [done|]. apply Hv.
    - by rewrite lookup_insert_ne. }
  split; [|split].
  - intros k b. destruct (decide (k = s)) as [->|Hne].
    + rewrite lookup_insert_eq. intros [= <-]. done.
    + rewrite lookup_insert_ne by done. apply Hrange.
  - unfold pot, potential. simpl. apply sum_list_with_le. intros k _. apply Hkey.
  - intros _ Hdl Hin. unfold pot, potential. simpl.
    apply (sum_list_with_lt _ _ _ s); [intros k _; apply Hkey|done|].
    unfold key_potential. rewrite lookup_insert_eq.
    destruct (state_values p !! s) as [cur|] eqn:Hs; simpl in Hdl.
    + apply level_drop; [done|apply Hv|done].
    + apply Nat.lt_succ_r, level_mono; [done|]. apply Hv.
Qed.

Variable p0 : Planner.
Hypothesis accuracy_eps : stopping_accuracy (config p0) = eps.
Hypothesis gamma_nonneg : 0 <= gamma (config p0).
Hypothesis keys_ks : ks = node_keys p0.

(** The planners met during a backup that started from [p0]. *)
Let good (p : Planner) : Prop := same_tree p0 p /\ bounded lo hi p.

Lemma backup_aggregated_ended (rec : Planner -> nat -> res (Planner * nat))
    (self N : nat) :
  (forall p n, good p -> (pot p <= N)%nat ->
     ended (fun p' => good p' /\ (pot p' <= pot p)%nat) (rec p n)) ->
  forall nodes p, good p -> (pot p <= N)%nat ->
    ended (fun p' => good p' /\ (pot p' <= pot p)%nat)
          (backup_aggregated rec self p nodes).
Proof.
  intros Hrec. induction nodes as [|nd rest IH]; intros p Hg HN; simpl;
    [split; [done|lia]|].
  apply (ended_bind (fun p' => good p' /\ (pot p' <= pot p)%nat)).
  - destruct (negb (nd =? self)%nat); [|simpl; split; [done|lia]].
    destruct (parent (node p nd)); [by apply Hrec | simpl; split; [done|lia]].
  - intros p1 c1 [Hg1 Hp1].
    apply (ended_bind (fun p' => good p' /\ (pot p' <= pot p1)%nat)).
    + apply IH; [done|lia].
    + intros p2 c2 [Hg2 Hp2]. simpl. split; [done|lia].
Qed.

Lemma backup_to_root_ended (fuel : nat) :
  forall p nid, good p -> (pot p < fuel)%nat ->
    ended (fun p' => good p' /\ (pot p' <= pot p)%nat)
          (backup_to_root fuel p nid).
Proof.
  induction fuel as [|fuel IH]; intros p nid Hg Hfuel; [lia|].
  destruct Hg as [Hst [Hrange Hrew]].
  pose proof Hst as (Hc & Hh & _).
  simpl. destruct (children (node p nid)) as [|ch chs].
  { simpl. split; [by split|lia]. }
  destruct (max_by _ _) as [best| |] eqn:Hmax; simpl; [|done|].
  2:{ apply max_by_ended in Hmax; [done|].
      intros x. apply get_value_upper_bound_ended. }
  unfold getitem at 1.
  destruct (state_values p !! observation (node p best)) as [b|] eqn:Hb;
    simpl; [|done].
  destruct (update_value p _ _) as [[p1 [u dl]]| |] eqn:Hu; simpl; [|done|].
  2:{ by apply update_value_ended in Hu. }
  assert (Hv : lo <= reward (node p best) + gamma (config p) * b <= hi).
  { destruct (Hrange _ _ Hb) as [Hb1 Hb2]. destruct (Hrew best) as [Hr1 Hr2].
    rewrite Hc in *. nra. }
  destruct (update_value_potential _ _ _ _ _ _ Hrange Hv Hu)
    as (Hrange1 & Hle1 & Hlt1).
  pose proof (update_value_frame _ _ _ _ _ Hu) as Hst1.
  assert (Hg1 : good p1).
  { split; [by apply (same_tree_trans _ p)|].
    destruct Hst1 as (Hc1 & Hh1 & _). split; [done|].
    intros n. unfold node. rewrite Hc1, Hh1. apply Hrew. }
  destruct (u && Qltb (stopping_accuracy (config p1)) dl) eqn:Hgate;
    [|simpl; split; [done|lia]].
  apply andb_true_iff in Hgate as [-> Hdl]. apply Qltb_lt in Hdl.
  assert (Hpot1 : (pot p1 < pot p)%nat).
  { apply Hlt1; [done| |].
    - destruct Hst1 as (Hc1 & _). by rewrite Hc1, Hc, accuracy_eps in Hdl.
    - rewrite keys_ks.
      assert (node p nid = node p0 nid) as -> by (unfold node; by rewrite Hh).
      apply node_key_elem. }
  unfold propagate.
  apply (ended_bind (fun p' => good p' /\ (pot p' <= pot p1)%nat)).
  - destruct (parent (node p nid)); [|simpl; split; [done|lia]].
    apply IH; [done|lia].
  - intros p2 c1 [Hg2 Hp2].
    destruct (backup_aggregated_nodes (config p2)); [|simpl; split; [done|lia]].
    unfold getitem.
    destruct (state_nodes p2 !! _) as [nodes|]; simpl; [|done].
    apply (ended_bind (fun p' => good p' /\ (pot p' <= pot p2)%nat)).
    + apply (backup_aggregated_ended _ _ (pot p1)); [|done|done].
      intros q n Hq Hqp. apply IH; [done|lia].
    + intros p3 c2 [Hg3 Hp3]. simpl. split; [done|lia].
Qed.

End Termination.

Lemma fold_right_Qmin_le (l : list Q) (z x : Q) :
  x ∈ l -> fold_right Qmin z l <= x.
Proof.
  induction l as [|y l IH]; intros H; [inversion H|]. simpl.
  apply elem_of_cons in H as [->|H]; [apply Q.le_min_l|].
  eapply Qle_trans; [apply Q.le_min_r | by apply IH].
Qed.

Lemma fold_right_Qmax_ge (l : list Q) (z x : Q) :
  x ∈ l -> x <= fold_right Qmax z l.
Proof.
  induction l as [|y l IH]; intros H; [inversion H|]. simpl.
  apply elem_of_cons in H as [->|H]; [apply Q.le_max_l|].
  eapply Qle_trans; [by apply IH | apply Q.le_max_r].
Qed.

Lemma bound_in_all_values (p : Planner) (k : string) (b : Q) :
  state_values p !! k = Some b -> b ∈ all_values p.
Proof.
  intros H. unfold all_values. apply elem_of_app. left.
  apply elem_of_map_to_list in H. apply list_elem_of_In.
  apply list_elem_of_In in H. by apply (in_map snd) in H.
Qed.

Lemma reward_in_all_values (p : Planner) (nid : nat) :
  reward (node p nid) / (1 - gamma (config p)) ∈ all_values p.
Proof.
  unfold all_values. apply elem_of_app. right.
  apply list_elem_of_In.
  apply (in_map (fun n => reward n / (1 - gamma (config p)))).
  unfold node.
  destruct (nth_in_or_default nid (heap p) (fresh_node None 0)) as [H| ->].
  - by right.
  - by left.
Qed.

Lemma bounded_lowest_highest (p : Planner) :
  gamma (config p) < 1 -> bounded (lowest p) (highest p) p.
Proof.
  intros Hg. split.
  - intros k b Hb. apply bound_in_all_values in Hb. split.
    + by apply fold_right_Qmin_le.
    + by apply fold_right_Qmax_ge.
  - intros nid. pose proof (reward_in_all_values p nid) as Hin.
    set (c := 1 - gamma (config p)) in *.
    assert (Hc : 0 < c) by (unfold c; lra).
    assert (Hc' : ~ c == 0) by (intros E; rewrite E in Hc; by apply Qlt_irrefl in Hc).
    pose proof (fold_right_Qmin_le _ 0 _ Hin) as Hlo.
    pose proof (fold_right_Qmax_ge _ 0 _ Hin) as Hhi.
    fold (lowest p) in Hlo. fold (highest p) in Hhi.
    apply (Qmult_le_l _ _ c Hc) in Hlo, Hhi.
    rewrite Qmult_div_r in Hlo, Hhi by done. done.
Qed.

(** ** More fuel does not change an outcome *)

Lemma bind_ended {A B : Type} (m : res A) (k : A -> res B) :
  bind m k <> NoFuel -> m <> NoFuel.
Proof. by destruct m. Qed.

Section FuelMonotone.

Variables rec rec' : Planner -> nat -> res (Planner * nat).
Hypothesis rec_refines : forall p n, rec p n <> NoFuel -> rec' p n = rec p n.

Lemma backup_aggregated_more_fuel (self : nat) :
  forall nodes p,
    backup_aggregated rec self p nodes <> NoFuel ->
    backup_aggregated rec' self p nodes = backup_aggregated rec self p nodes.
Proof.
  induction nodes as [|nd rest IH]; intros p H; simpl in *; [done|].
  destruct (negb (nd =? self)%nat); cycle 1.
  { simpl in *. rewrite IH; [done|]. by apply bind_ended in H. }
  destruct (parent (node p nd)) as [par|]; cycle 1.
  { simpl in *. rewrite IH; [done|]. by apply bind_ended in H. }
  pose proof (bind_ended _ _ H) as Hpar. rewrite (rec_refines _ _ Hpar).
  destruct (rec p par) as [[p1 c1]| |]; simpl in *; [|done|done].
  rewrite IH; [done|]. by apply bind_ended in H.
Qed.

Lemma propagate_more_fuel (nid : nat) (self : Node) (p1 : Planner) :
  propagate rec nid self p1 <> NoFuel ->
  propagate rec' nid self p1 = propagate rec nid self p1.
Proof.
  unfold propagate. intros H.
  assert (Hpar : match parent self with
                 | Some par => rec' p1 par
                 | None => Ret (p1, O)
                 end
                 = match parent self with
                   | Some par => rec p1 par
                   | None => Ret (p1, O)
                   end).
  { destruct (parent self) as [par|]; [|done].
    apply rec_refines. by apply bind_ended in H. }
  rewrite Hpar.
  destruct (match parent self with
            | Some par => rec p1 par
            | None => Ret (p1, O)
            end) as [[p2 c1]| |]; simpl in *; [|done|done].
  destruct (backup_aggregated_nodes (config p2)); [|done].
  destruct (getitem _ _) as [nodes| |]; simpl in *; [|done|done].
  rewrite backup_aggregated_more_fuel; [done|]. by apply bind_ended in H.
Qed.

End FuelMonotone.

Lemma backup_to_root_more_fuel (fuel : nat) :
  forall fuel' p nid, (fuel <= fuel')%nat ->
    backup_to_root fuel p nid <> NoFuel ->
    backup_to_root fuel' p nid = backup_to_root fuel p nid.
Proof.
  induction fuel as [|fuel IH]; intros fuel' p nid Hle H; [done|].
  destruct fuel' as [|fuel']; [lia|]. simpl in *.
  destruct (children (node p nid)) as [|ch chs]; [done|].
  destruct (max_by _ _) as [best| |]; simpl in *; [|done|done].
  destruct (getitem _ _) as [b| |]; simpl in *; [|done|done].
  destruct (update_value p _ _) as [[p1 [u dl]]| |]; simpl in *; [|done|done].
  destruct (u && Qltb (stopping_accuracy (config p1)) dl); [|done].
  apply propagate_more_fuel; [|done].
  intros q n Hq. apply IH; [lia|done].
Qed.


(** With a stopping accuracy of 0 the backup of [planner_cycle] goes round
    the two states for ever: each round halves both bounds, which stay
    positive, so that every [update_value] reports an improvement. *)
Lemma planner_cycle_diverges (fuel : nat) :
  forall (m : gmap string Q) (a b : Q),
    m !! "A" = Some a -> m !! "B" = Some b ->
    (0 < a -> (1#2) * a < b ->
       backup_to_root fuel (set_state_values planner_cycle m) 1 = NoFuel)
    /\ (0 < b -> (1#2) * b < a ->
       backup_to_root fuel (set_state_values planner_cycle m) O = NoFuel).
Proof.
  induction fuel as [|fuel IH]; intros m a b HA HB; [by split|].
  set (p := set_state_values planner_cycle m).
  assert (Hg : gamma (config p) < 1) by (vm_compute; reflexivity).
  split; intros Hpos Hlt.
  - assert (Hu : update_value p "B" (0 + (1#2) * a)
                 = Ret (set_state_values planner_cycle (<["B" := 0 + (1#2) * a]> m),
                        (true, b - (0 + (1#2) * a)))).
    { apply (update_value_present_lt p "B" _ b Hg HB). lra. }
    rewrite (backup_to_root_step fuel p 1 2 a _ true _ ltac:(discriminate)
               ltac:(simpl; unfold get_value_upper_bound, getitem; simpl;
                     by rewrite HA) HA Hu).
    assert (Hgate : Qltb (stopping_accuracy (config p)) (b - (0 + (1#2) * a)) = true).
    { apply Qltb_lt. simpl. lra. }
    rewrite Hgate. simpl. unfold propagate. simpl.
    destruct (IH (<["B" := 0 + (1#2) * a]> m) a (0 + (1#2) * a)) as [_ H0].
    + by rewrite lookup_insert_ne.
    + by rewrite lookup_insert_eq.
    + rewrite H0; [done|lra|lra].
  - assert (Hu : update_value p "A" (0 + (1#2) * b)
                 = Ret (set_state_values planner_cycle (<["A" := 0 + (1#2) * b]> m),
                        (true, a - (0 + (1#2) * b)))).
    { apply (update_value_present_lt p "A" _ a Hg HA). lra. }
    rewrite (backup_to_root_step fuel p O 1 b _ true _ ltac:(discriminate)
               ltac:(simpl; unfold get_value_upper_bound, getitem; simpl;
                     by rewrite HB) HB Hu).
    assert (Hgate : Qltb (stopping_accuracy (config p)) (a - (0 + (1#2) * b)) = true).
    { apply Qltb_lt. simpl. lra. }
    rewrite Hgate. simpl. unfold propagate. simpl.
    unfold getitem. rewrite lookup_insert_eq. simpl.
    destruct (IH (<["A" := 0 + (1#2) * b]> m) (0 + (1#2) * b) b) as [H1 _].
    + by rewrite lookup_insert_eq.
    + by rewrite lookup_insert_ne.
    + rewrite H1; [done|lra|lra].
Qed.



(** * Further properties of the planner *)

(** ** update_value: what a call leaves behind *)

(** X1.  [update_value] is idempotent: once a call with the candidate [v]
    has returned, a further call on the same state with [v], or with any
    candidate that is not below [v], answers [(false, 0)] and leaves the
    planner as it is. *)
Theorem update_value_idempotent (p p1 : Planner) (s : string) (v w : Q)
    (r : bool * Q) :
  update_value p s v = Ret (p1, r) -> v <= w ->
  update_value p1 s w = Ret (p1, (false, 0)).
Proof.
  destruct r as [u dl]. intros H Hvw.
  apply update_value_inv in H as [(_ & -> & cur & Hcur & Hle)|(_ & -> & _)].
  - apply (update_value_present_ge _ _ _ cur Hcur). lra.
  - apply (update_value_present_ge _ _ _ v); [|done].
    simpl. apply lookup_insert_eq.
Qed.

Lemma update_value_idempotent_witness :
  update_value planner_tightened "A" 0 = Ret (planner_tightened, (false, 0)).
Proof.
  apply (update_value_idempotent planner_planned planner_tightened "A" 0 0
           (true, 2 - 0)).
  - reflexivity.
  - vm_compute. discriminate.
Defined.

Lemma update_value_post (p p1 : Planner) (s : string) (v : Q)
    (u : bool) (dl : Q) :
  update_value p s v = Ret (p1, (u, dl)) ->
  (exists b, state_values p1 !! s = Some b /\ b <= v /\ (u = true -> b = v))
  /\ (forall k, k <> s -> state_values p1 !! k = state_values p !! k)
  /\ same_tree p p1.
Proof.
  intros H. pose proof (update_value_frame _ _ _ _ _ H) as Hframe.
  apply update_value_inv in H as [(-> & -> & cur & Hcur & Hle)|(-> & -> & _)].
  - split; [|by split]. exists cur. split; [done|]. split; [done|discriminate].
  - split; [|split; [|done]].
    + exists v. simpl. rewrite lookup_insert_eq. split; [done|].
      split; [apply Qle_refl | done].
    + intros k Hk. simpl. by rewrite lookup_insert_ne.
Qed.

(** X2.  After [update_value] has returned, the state has a bound, and that
    bound is at most the candidate; the bounds of all other states, the
    tree, the node index and the frontier are as they were. *)
Theorem update_value_registers (p p1 : Planner) (s : string) (v : Q)
    (u : bool) (dl : Q) :
  update_value p s v = Ret (p1, (u, dl)) ->
  (exists b, state_values p1 !! s = Some b /\ b <= v /\ (u = true -> b = v))
  /\ (forall k, k <> s -> state_values p1 !! k = state_values p !! k)
  /\ same_tree p p1.
Proof. apply update_value_post. Qed.

Lemma update_value_registers_witness :
  (exists b, state_values planner_tightened !! "A" = Some b /\ b <= 0
             /\ (true = true -> b = 0))
  /\ (forall k, k <> "A" ->
        state_values planner_tightened !! k = state_values planner_planned !! k)
  /\ same_tree planner_planned planner_tightened.
Proof.
  apply (update_value_registers planner_planned planner_tightened "A" 0 true
           (2 - 0)).
  reflexivity.
Defined.

(** X3.  [update_value] fails in one way only: it raises
    [ZeroDivisionError] exactly when [gamma] is 1 and the candidate is to be
    stored (the state is absent, or the candidate is below its bound).  With
    [gamma = 1] and a candidate that is not below the bound of a present
    state, it still answers [(false, 0)]. *)
Theorem update_value_errors (p : Planner) (s : string) (v : Q) :
  (update_value p s v = Raise ZeroDivisionError
   <-> gamma (config p) == 1
       /\ (state_values p !! s = None
           \/ exists cur, state_values p !! s = Some cur /\ v < cur))
  /\ (forall e, update_value p s v = Raise e -> e = ZeroDivisionError)
  /\ update_value p s v <> NoFuel
  /\ (forall cur, state_values p !! s = Some cur -> cur <= v ->
        update_value p s v = Ret (p, (false, 0))).
Proof.
  assert (Hzero : Qeq_bool (1 - gamma (config p)) 0 = true <-> gamma (config p) == 1).
  { rewrite Qeq_bool_iff. split; intros E; lra. }
  split; [|split; [|split]].
  - unfold update_value, max_future.
    destruct (state_values p !! s) as [cur|] eqn:Hs.
    + destruct (Qltb v cur) eqn:E.
      * destruct (Qeq_bool (1 - gamma (config p)) 0) eqn:Hq; simpl.
        -- split; [|done]. intros _. split; [by apply Hzero|].
           right. exists cur. split; [done | by apply Qltb_lt].
        -- split; [discriminate|]. intros [Hg _]. apply Hzero in Hg. congruence.
      * split; [discriminate|].
        intros [_ [?|(cur' & [= <-] & Hlt)]]; [discriminate|].
        apply Qltb_lt in Hlt. congruence.
    + destruct (Qeq_bool (1 - gamma (config p)) 0) eqn:Hq; simpl.
      * split; [|done]. intros _. split; [by apply Hzero | by left].
      * split; [discriminate|]. intros [Hg _]. apply Hzero in Hg. congruence.
  - intros e. unfold update_value, max_future.
    destruct (match state_values p !! s with Some cur => Qltb v cur | None => true end);
      [|discriminate].
    destruct (Qeq_bool (1 - gamma (config p)) 0); simpl; [|discriminate].
    by intros [= <-].
  - apply update_value_ended.
  - intros cur. apply update_value_present_ge.
Qed.

Lemma update_value_errors_witness :
  update_value planner_undiscounted "A" 1 = Raise ZeroDivisionError
  /\ update_value planner_undiscounted "B" 5 = Raise ZeroDivisionError
  /\ update_value planner_undiscounted "A" 2 = Ret (planner_undiscounted, (false, 0)).
Proof.
  destruct (update_value_errors planner_undiscounted "A" 1) as (H1 & _).
  destruct (update_value_errors planner_undiscounted "B" 5) as (H2 & _).
  destruct (update_value_errors planner_undiscounted "A" 2) as (_ & _ & _ & H3).
  split; [|split].
  - apply H1. split; [reflexivity|]. right. exists 2. split; reflexivity.
  - apply H2. split; [reflexivity|]. by left.
  - apply (H3 2); [reflexivity|]. vm_compute. discriminate.
Defined.

(** ** update: registration, first sight, frame *)

Lemma remove_first_subset (x : nat) (l l' : list nat) :
  remove_first x l = Ret l' ->
  x ∈ l /\ (forall y, y ∈ l' -> y ∈ l) /\ (forall y, y ∈ l -> y <> x -> y ∈ l').
Proof.
  revert l'. induction l as [|z l IH]; intros l' H; simpl in H; [discriminate|].
  destruct (Nat.eqb_spec x z) as [->|Hne].
  - inversion H; subst. split; [left|]. split.
    + intros y Hy. by right.
    + intros y Hy Hyz. by apply elem_of_cons in Hy as [->|Hy].
  - destruct (remove_first x l) as [l''| |]; simpl in H; try discriminate.
    inversion H; subst. destruct (IH l'' eq_refl) as (Hx & Hsub & Hkeep).
    split; [by right|]. split.
    + intros y Hy. apply elem_of_cons in Hy as [->|Hy]; [left | right; auto].
    + intros y Hy Hyx. apply elem_of_cons in Hy as [->|Hy]; [left | right; auto].
Qed.

Lemma remove_suboptimal_subset (best : nat) (sl lv lv' : list nat) :
  remove_suboptimal best sl lv = Ret lv' ->
  (forall y, y ∈ lv' -> y ∈ lv)
  /\ (forall y, y ∈ lv -> y = best \/ y ∉ sl -> y ∈ lv')
  /\ (forall x, x ∈ sl -> x <> best -> x ∈ lv).
Proof.
  revert lv lv'. induction sl as [|nd rest IH]; intros lv lv' H; simpl in H.
  - inversion H; subst. split; [done|]. split; [done|]. intros x Hx. inversion Hx.
  - destruct (Nat.eqb_spec nd best) as [->|Hne].
    + destruct (IH _ _ H) as (Hsub & Hkeep & Hin). split; [done|]. split.
      * intros y Hy [->|Hn]; apply Hkeep; auto.
        right. intros Hr. apply Hn. by right.
      * intros x Hx Hxb. apply elem_of_cons in Hx as [->|Hx]; [done | auto].
    + destruct (remove_first nd lv) as [lv1| |] eqn:Hrm; simpl in H; try discriminate.
      destruct (remove_first_subset _ _ _ Hrm) as (Hnd & Hsub1 & Hkeep1).
      destruct (IH _ _ H) as (Hsub & Hkeep & Hin). split; [auto|]. split.
      * intros y Hy Hcase. apply Hkeep.
        -- apply Hkeep1; [done|]. destruct Hcase as [->|Hn]; [done|].
           intros ->. apply Hn. left.
        -- destruct Hcase as [->|Hn]; [by left|]. right.
           intros Hr. apply Hn. by right.
      * intros x Hx Hxb. apply elem_of_cons in Hx as [->|Hx]; [done | auto].
Qed.

Lemma prune_leaves (p p' : Planner) (obs : string) :
  prune p obs = Ret p' ->
  root p' = root p
  /\ (forall y, y ∈ leaves p' -> y ∈ leaves p)
  /\ (forall y sl, state_leaves p obs = Ret sl -> y ∈ leaves p -> y ∉ sl ->
        y ∈ leaves p').
Proof.
  unfold prune. intros H.
  destruct (state_leaves p obs) as [sl| |] eqn:Hsl; simpl in H; try discriminate.
  destruct (max_by _ sl) as [best| |]; simpl in H; try discriminate.
  destruct (remove_suboptimal best sl (leaves p)) as [lv| |] eqn:Hrm; simpl in H;
    try discriminate.
  inversion H; subst p'. simpl.
  destruct (remove_suboptimal_subset _ _ _ _ Hrm) as (Hsub & Hkeep & _).
  split; [done|]. split; [done|].
  intros y sl' [= <-] Hy Hn. apply Hkeep; auto.
Qed.

Lemma registered_state_nodes (p : Planner) (nid : nat) (r : Q) (d : bool) (v : Q)
    (obs : string) :
  let p3 := registered_state p nid r d v obs in
  root p3 = root p
  /\ (forall nd, nd <> nid -> node p3 nd = node p nd)
  /\ ((nid < length (heap p))%nat ->
      node p3 nid = mkNode (parent (node p nid)) (children (node p nid)) r v
                           (depth (node p nid)) d obs).
Proof.
  unfold registered_state. cbv zeta.
  set (n1 := mkNode _ _ r v _ d _). set (p1 := set_node p nid n1).
  split; [done|]. split.
  - intros nd Hne. change (node (register ?q nid obs) nd) with (node q nd).
    rewrite node_set_node, decide_False by (intros [? _]; congruence).
    unfold p1. rewrite node_set_node, decide_False by (intros [? _]; congruence).
    done.
  - intros Hlt. change (node (register ?q nid obs) nid) with (node q nid).
    assert (H1 : node p1 nid = n1).
    { unfold p1. rewrite node_set_node. by rewrite decide_True. }
    rewrite node_set_node, decide_True.
    + by rewrite H1.
    + split; [done|]. unfold p1, set_node. simpl. by rewrite length_insert.
Qed.

Section UpdateShape.

Variable accumulate : Planner -> nat -> Q -> res Q.

(** A successful [update], seen from the planner it returns. *)
Lemma update_shape (p p' : Planner) (nid : nat) (r : Q) (d : bool) (obs : string) :
  update accumulate p nid r d obs = Ret p' ->
  exists v p4 u dl,
    let p3 := registered_state p nid r d v obs in
    accumulate p nid r = Ret v
    /\ update_value p3 obs (future_value_ucb (config p) (done (node p3 nid)))
       = Ret (p4, (u, dl))
    /\ config p' = config p /\ root p' = root p
    /\ heap p' = heap p3 /\ state_nodes p' = state_nodes p3
    /\ state_values p' = state_values p4
    /\ (forall y, y ∈ leaves p' -> y ∈ leaves p)
    /\ (prune_suboptimal_leaves (config p) = false -> leaves p' = leaves p).
Proof.
  intros H. apply update_inv in H as (v & p4 & u & dl & Hacc & _ & Hu & Hpr).
  exists v, p4, u, dl. cbv zeta.
  destruct (registered_state_frame p nid r d v obs) as (Hc3 & Hl3 & _).
  destruct (registered_state_nodes p nid r d v obs) as (Hr3 & _).
  destruct (update_value_frame _ _ _ _ _ Hu) as (Hc4 & Hh4 & Hr4 & Hn4 & Hl4).
  split; [done|]. split; [done|].
  destruct (prune_suboptimal_leaves (config p)).
  - destruct (prune_frame _ _ _ Hpr) as (Hc' & Hh' & Hn' & Hv').
    destruct (prune_leaves _ _ _ Hpr) as (Hr' & Hsub & _).
    repeat split; try congruence.
    intros y Hy. rewrite <- Hl3, <- Hl4. by apply Hsub.
  - subst p'. repeat split; congruence.
Qed.

End UpdateShape.

(** X4.  The first [update] that reaches a state gives it its initial
    bound: 0 when the transition is terminal, [1/(1-gamma)] otherwise. *)
Theorem update_first_sight (accumulate : Planner -> nat -> Q -> res Q)
    (p p' : Planner) (nid : nat) (r : Q) (d : bool) (obs : string) :
  (nid < length (heap p))%nat ->
  state_values p !! obs = None ->
  update accumulate p nid r d obs = Ret p' ->
  state_values p' !! obs = Some (future_value_ucb (config p) d).
Proof.
  intros Hlt Habs Hup.
  apply update_shape in Hup as (v & p4 & u & dl & _ & Hu & _ & _ & _ & _ & Hv & _).
  rewrite (registered_state_done _ _ _ _ _ _ Hlt) in Hu.
  destruct (registered_state_frame p nid r d v obs) as (_ & _ & Hv3 & _).
  rewrite Hv.
  apply update_value_inv in Hu as [(_ & _ & cur & Hcur & _)|(_ & -> & _)].
  - rewrite Hv3, Habs in Hcur. discriminate.
  - simpl. apply lookup_insert_eq.
Qed.

Lemma update_first_sight_witness :
  exists p', update accumulate_ex planner_unseen 1 0 true "B" = Ret p'
             /\ state_values p' !! "B" = Some (future_value_ucb cfg_half true).
Proof.
  eexists. split; [vm_compute; reflexivity|].
  apply (update_first_sight accumulate_ex planner_unseen _ 1%nat 0 true "B").
  - vm_compute. lia.
  - reflexivity.
  - vm_compute. reflexivity.
Defined.

(** X5.  After [update] the node is in the state it was given, it is the
    last node registered under that state, and the state has a bound, so
    that [get_value_upper_bound] on the node returns and does not raise
    [KeyError]. *)
Theorem update_registers_node (accumulate : Planner -> nat -> Q -> res Q)
    (p p' : Planner) (nid : nat) (r : Q) (d : bool) (obs : string) :
  (nid < length (heap p))%nat ->
  update accumulate p nid r d obs = Ret p' ->
  observation (node p' nid) = obs
  /\ state_nodes p' !! obs
     = Some (default [] (state_nodes p !! obs) ++ [nid])%list
  /\ exists b, state_values p' !! obs = Some b
               /\ b <= future_value_ucb (config p) d
               /\ get_value_upper_bound p' (node p' nid)
                  = Ret (value (node p' nid)
                         + gamma (config p) ^ Z.of_nat (depth (node p nid)) * b).
Proof.
  intros Hlt Hup.
  apply update_shape in Hup
    as (v & p4 & u & dl & _ & Hu & Hc & _ & Hh & Hn & Hv & _).
  rewrite (registered_state_done _ _ _ _ _ _ Hlt) in Hu.
  destruct (registered_state_frame p nid r d v obs) as (_ & _ & _ & _ & Hreg & _).
  destruct (registered_state_nodes p nid r d v obs) as (_ & _ & Hnode).
  specialize (Hnode Hlt).
  assert (Hnid : node p' nid = node (registered_state p nid r d v obs) nid)
    by (unfold node; by rewrite Hh).
  destruct (update_value_post _ _ _ _ _ _ Hu) as ((b & Hb & Hle & _) & _ & _).
  split; [by rewrite Hnid, Hnode|]. split; [by rewrite Hn|].
  exists b. rewrite Hv. split; [done|]. split; [done|].
  unfold get_value_upper_bound, getitem. rewrite Hv, Hnid, Hnode. simpl.
  rewrite Hb. simpl. by rewrite Hc.
Qed.

Lemma update_registers_node_witness :
  exists p', update accumulate_ex planner_second_child 2 (1#2) false "B" = Ret p'
    /\ observation (node p' 2) = "B"
    /\ state_nodes p' !! "B"
       = Some (default [] (state_nodes planner_second_child !! "B") ++ [2%nat])%list
    /\ exists b, state_values p' !! "B" = Some b
         /\ b <= future_value_ucb (config planner_second_child) false
         /\ get_value_upper_bound p' (node p' 2)
            = Ret (value (node p' 2)
                   + gamma (config planner_second_child)
                     ^ Z.of_nat (depth (node planner_second_child 2)) * b).
Proof.
  eexists. split; [vm_compute; reflexivity|].
  apply (update_registers_node accumulate_ex planner_second_child _ 2%nat (1#2)
           false "B").
  - vm_compute. lia.
  - vm_compute. reflexivity.
Defined.

(** X6.  [update] touches one node, one state and nothing else: the other
    nodes, the bounds and the registrations of the other states, the
    configuration and the root are as before.  It never adds a node to the
    frontier, and leaves the frontier as it is when pruning is disabled. *)
Theorem update_frame (accumulate : Planner -> nat -> Q -> res Q)
    (p p' : Planner) (nid : nat) (r : Q) (d : bool) (obs : string) :
  update accumulate p nid r d obs = Ret p' ->
  config p' = config p /\ root p' = root p
  /\ (forall nd, nd <> nid -> node p' nd = node p nd)
  /\ (forall k, k <> obs ->
        state_values p' !! k = state_values p !! k
        /\ state_nodes p' !! k = state_nodes p !! k)
  /\ (forall y, y ∈ leaves p' -> y ∈ leaves p)
  /\ (prune_suboptimal_leaves (config p) = false -> leaves p' = leaves p).
Proof.
  intros Hup.
  apply update_shape in Hup
    as (v & p4 & u & dl & _ & Hu & Hc & Hr & Hh & Hn & Hv & Hsub & Hoff).
  destruct (registered_state_frame p nid r d v obs) as (_ & _ & Hv3 & _ & _ & Hne).
  destruct (registered_state_nodes p nid r d v obs) as (_ & Hnodes & _).
  destruct (update_value_post _ _ _ _ _ _ Hu) as (_ & Hother & _).
  repeat split; try done.
  - intros nd Hnd. rewrite <- (Hnodes nd Hnd). unfold node. by rewrite Hh.
  - rewrite Hv, (Hother k) by done. by rewrite Hv3.
  - rewrite Hn. by apply Hne.
Qed.

Lemma update_frame_witness :
  exists p', update accumulate_ex planner_second_child 2 (1#2) false "B" = Ret p'
    /\ config p' = config planner_second_child
    /\ root p' = root planner_second_child
    /\ (forall nd, nd <> 2%nat -> node p' nd = node planner_second_child nd)
    /\ (forall k, k <> "B" ->
          state_values p' !! k = state_values planner_second_child !! k
          /\ state_nodes p' !! k = state_nodes planner_second_child !! k)
    /\ (forall y, y ∈ leaves p' -> y ∈ leaves planner_second_child)
    /\ (prune_suboptimal_leaves (config planner_second_child) = false ->
        leaves p' = leaves planner_second_child).
Proof.
  eexists. split; [vm_compute; reflexivity|].
  apply (update_frame accumulate_ex planner_second_child _ 2%nat (1#2) false "B").
  vm_compute. reflexivity.
Defined.

(** ** Pruning: ties, what is kept, double registration *)

Lemma max_from_first {A : Type} (key : A -> res Q) (l : list A) (b x : A) (kb : Q) :
  key b = Ret kb -> max_from key b kb l = Ret x ->
  (x = b /\ forall y, y ∈ l -> exists ky, key y = Ret ky /\ ky <= kb)
  \/ exists l1 l2 kx,
       l = (l1 ++ x :: l2)%list /\ key x = Ret kx /\ kb < kx
       /\ (forall y, y ∈ l1 -> exists ky, key y = Ret ky /\ ky < kx)
       /\ (forall y, y ∈ l2 -> exists ky, key y = Ret ky /\ ky <= kx).
Proof.
  revert b kb. induction l as [|y l IH]; intros b kb Hb H; simpl in H.
  - inversion H; subst. left. split; [done|]. intros y Hy. inversion Hy.
  - destruct (key y) as [k| |] eqn:Hy; simpl in H; try discriminate.
    destruct (Qltb kb k) eqn:E.
    + apply Qltb_lt in E. right.
      destruct (IH y k Hy H) as [[-> Hall]|(l1 & l2 & kx & -> & Hx & Hlt & H1 & H2)].
      * exists [], l, k. repeat split; try done. intros z Hz. inversion Hz.
      * exists (y :: l1), l2, kx. repeat split; try done; [lra|].
        intros z Hz. apply elem_of_cons in Hz as [->|Hz]; [|by apply H1].
        exists k. by split.
    + apply Qltb_ge in E.
      destruct (IH b kb Hb H) as [[-> Hall]|(l1 & l2 & kx & -> & Hx & Hlt & H1 & H2)].
      * left. split; [done|]. intros z Hz.
        apply elem_of_cons in Hz as [->|Hz]; [|by apply Hall].
        exists k. by split.
      * right. exists (y :: l1), l2, kx. repeat split; try done.
        intros z Hz. apply elem_of_cons in Hz as [->|Hz]; [|by apply H1].
        exists k. split; [done|lra].
Qed.

(** [max] returns the first of the elements whose key is maximal. *)
Lemma max_by_first {A : Type} (key : A -> res Q) (l : list A) (x : A) :
  max_by key l = Ret x ->
  exists l1 l2 kx,
    l = (l1 ++ x :: l2)%list /\ key x = Ret kx
    /\ (forall y, y ∈ l1 -> exists ky, key y = Ret ky /\ ky < kx)
    /\ (forall y, y ∈ l2 -> exists ky, key y = Ret ky /\ ky <= kx).
Proof.
  destruct l as [|z l]; simpl; [discriminate|].
  destruct (key z) as [k| |] eqn:Hz; simpl; try discriminate.
  intros H.
  destruct (max_from_first key l z x k Hz H)
    as [[-> Hall]|(l1 & l2 & kx & -> & Hx & Hlt & H1 & H2)].
  - exists [], l, k. repeat split; try done. intros y Hy. inversion Hy.
  - exists (z :: l1), l2, kx. repeat split; try done.
    intros y Hy. apply elem_of_cons in Hy as [->|Hy]; [|by apply H1].
    exists k. by split.
Qed.

(** X7.  Ties in the pruning step go to the node registered first: the node
    that stays in the frontier has a bound strictly above that of every
    candidate registered before it, and at least that of every candidate
    registered after it.  With a duplicate-free frontier, every other
    candidate has left the frontier. *)
Theorem prune_tie_break (p p' : Planner) (obs : string) :
  prune p obs = Ret p' ->
  exists sl1 best sl2 kb,
    state_leaves p obs = Ret (sl1 ++ best :: sl2)%list
    /\ best ∈ leaves p'
    /\ get_value_upper_bound p (node p best) = Ret kb
    /\ (forall y, y ∈ sl1 ->
          exists k, get_value_upper_bound p (node p y) = Ret k /\ k < kb)
    /\ (forall y, y ∈ sl2 ->
          exists k, get_value_upper_bound p (node p y) = Ret k /\ k <= kb)
    /\ (NoDup (leaves p) ->
        forall y, y ∈ (sl1 ++ sl2)%list -> y <> best -> y ∉ leaves p').
Proof.
  unfold prune. intros H.
  destruct (state_leaves p obs) as [sl| |] eqn:Hsl; simpl in H; try discriminate.
  destruct (max_by _ sl) as [best| |] eqn:Hmax; simpl in H; try discriminate.
  destruct (remove_suboptimal best sl (leaves p)) as [lv| |] eqn:Hrm; simpl in H;
    try discriminate.
  inversion H; subst p'. simpl. clear H.
  destruct (max_by_first _ _ _ Hmax) as (sl1 & sl2 & kb & -> & Hkb & H1 & H2).
  exists sl1, best, sl2, kb.
  destruct (remove_suboptimal_subset _ _ _ _ Hrm) as (_ & Hkeep & _).
  assert (Hbest : best ∈ leaves p).
  { apply (state_leaves_elem _ _ _ best Hsl).
    apply elem_of_app. right. left. }
  repeat split; try done.
  - apply Hkeep; [done | by left].
  - intros Hnd y Hy Hne Hin.
    destruct (remove_suboptimal_spec _ _ _ _ Hrm Hnd) as [_ Hiff].
    apply Hiff in Hin as [_ [->|Hn]]; [done|]. apply Hn.
    apply elem_of_app in Hy as [Hy|Hy]; apply elem_of_app; [by left|].
    right. by right.
Qed.

Lemma prune_tie_break_witness :
  prune planner_tie "B" = Ret (set_leaves planner_tie [1%nat])
  /\ exists sl1 best sl2 kb,
       state_leaves planner_tie "B" = Ret (sl1 ++ best :: sl2)%list
       /\ best ∈ leaves (set_leaves planner_tie [1%nat])
       /\ get_value_upper_bound planner_tie (node planner_tie best) = Ret kb
       /\ (forall y, y ∈ sl1 ->
             exists k, get_value_upper_bound planner_tie (node planner_tie y)
                       = Ret k /\ k < kb)
       /\ (forall y, y ∈ sl2 ->
             exists k, get_value_upper_bound planner_tie (node planner_tie y)
                       = Ret k /\ k <= kb)
       /\ (NoDup (leaves planner_tie) ->
           forall y, y ∈ (sl1 ++ sl2)%list -> y <> best ->
             y ∉ leaves (set_leaves planner_tie [1%nat])).
Proof.
  split; [reflexivity|].
  apply (prune_tie_break planner_tie (set_leaves planner_tie [1%nat]) "B").
  reflexivity.
Defined.

(** X8.  The pruning step removes candidates only: a frontier node that has
    children, or that is not registered under the state being pruned, stays
    in the frontier; the tree and both registries are untouched. *)
Theorem prune_keeps_others (p p' : Planner) (obs : string) :
  prune p obs = Ret p' ->
  (forall y, y ∈ leaves p ->
     ~ registered p obs y \/ children (node p y) <> [] -> y ∈ leaves p')
  /\ config p' = config p /\ heap p' = heap p
  /\ state_nodes p' = state_nodes p /\ state_values p' = state_values p.
Proof.
  intros H. split; [|by apply prune_frame in H].
  intros y Hy Hcase.
  destruct (state_leaves p obs) as [sl| |] eqn:Hsl;
    [|unfold prune in H; rewrite Hsl in H; discriminate
     |unfold prune in H; rewrite Hsl in H; discriminate].
  destruct (prune_leaves _ _ _ H) as (_ & _ & Hkeep).
  apply (Hkeep y sl); [done|done|].
  intros Hin. apply (state_leaves_elem _ _ _ y Hsl) in Hin as [Hreg [Hch _]].
  destruct Hcase as [Hn|Hn]; auto.
Qed.

Lemma prune_keeps_others_witness :
  exists p', prune planner_second_child "B" = Ret p'
    /\ (forall y, y ∈ leaves planner_second_child ->
          ~ registered planner_second_child "B" y
          \/ children (node planner_second_child y) <> [] -> y ∈ leaves p')
    /\ config p' = config planner_second_child
    /\ heap p' = heap planner_second_child
    /\ state_nodes p' = state_nodes planner_second_child
    /\ state_values p' = state_values planner_second_child.
Proof.
  eexists. split; [vm_compute; reflexivity|].
  apply (prune_keeps_others planner_second_child _ "B"). vm_compute. reflexivity.
Defined.

Lemma remove_suboptimal_error (best : nat) (sl lv : list nat) (e : exn) :
  remove_suboptimal best sl lv <> NoFuel
  /\ (remove_suboptimal best sl lv = Raise e -> e = ValueError).
Proof.
  assert (Hfirst : forall x l, remove_first x l <> NoFuel
                               /\ (remove_first x l = Raise e -> e = ValueError)).
  { intros x l. induction l as [|y l [IH1 IH2]]; simpl.
    - split; [done|]. by intros [= <-].
    - destruct (x =? y)%nat; [by split|].
      destruct (remove_first x l); simpl; split; try done; try (by apply IH2). }
  revert lv. induction sl as [|nd rest IH]; intros lv; simpl; [by split|].
  destruct (nd =? best)%nat; [apply IH|].
  destruct (Hfirst nd lv) as [H1 H2].
  destruct (remove_first nd lv) as [lv1| |]; simpl; [apply IH | by split | done].
Qed.

Lemma remove_suboptimal_twice (best x : nat) (l1 l2 l3 lv lv' : list nat) :
  NoDup lv -> x <> best ->
  remove_suboptimal best (l1 ++ x :: l2 ++ x :: l3) lv <> Ret lv'.
Proof.
  intros Hnd Hx. revert lv Hnd. induction l1 as [|a l1 IH]; intros lv Hnd H;
    simpl in H.
  - destruct (Nat.eqb_spec x best) as [?|_]; [done|].
    destruct (remove_first x lv) as [lv1| |] eqn:Hrm; simpl in H; try discriminate.
    destruct (remove_first_spec _ _ _ Hrm Hnd) as [_ Hiff].
    destruct (remove_suboptimal_subset _ _ _ _ H) as (_ & _ & Hin).
    assert (Hx1 : x ∈ lv1).
    { apply Hin; [|done]. apply elem_of_app. right. left. }
    apply Hiff in Hx1 as [_ Hne]. done.
  - destruct (a =? best)%nat; [by apply (IH lv)|].
    destruct (remove_first a lv) as [lv1| |] eqn:Hrm; simpl in H; try discriminate.
    destruct (remove_first_spec _ _ _ Hrm Hnd) as [Hnd1 _].
    by apply (IH lv1).
Qed.

(** X9.  A node registered twice under a state is tolerated by the pruning
    step only as the best candidate.  With a duplicate-free frontier, when a
    childless frontier node occurs twice among the nodes registered under
    the state, pruning either keeps that very node, or fails: it raises
    [ValueError] as soon as another candidate is the best one, the second
    removal of the node from the frontier finding nothing to remove. *)
Theorem prune_double_registration (p : Planner) (obs : string) (x : nat)
    (l1 l2 l3 : list nat) :
  NoDup (leaves p) ->
  state_nodes p !! obs = Some (l1 ++ x :: l2 ++ x :: l3)%list ->
  frontier_node p x ->
  (forall p', prune p obs = Ret p' ->
     x ∈ leaves p'
     /\ forall y, registered p obs y -> frontier_node p' y -> y = x)
  /\ (forall sl best,
        state_leaves p obs = Ret sl ->
        max_by (fun nd => get_value_upper_bound p (node p nd)) sl = Ret best ->
        best <> x ->
        prune p obs = Raise ValueError).
Proof.
  intros Hnd Hreg [Hch Hin].
  set (f := fun nd => match children (node p nd) with [] => true | _ => false end
                      && mem nd (leaves p)).
  assert (Hfx : f x = true).
  { unfold f. rewrite Hch. simpl. by apply mem_elem. }
  set (sl0 := (List.filter f l1 ++ x :: List.filter f l2
                 ++ x :: List.filter f l3)%list).
  assert (Hsl : state_leaves p obs = Ret sl0).
  { unfold state_leaves, getitem. rewrite Hreg. simpl. fold f. unfold sl0.
    rewrite List.filter_app. simpl. rewrite Hfx, List.filter_app. simpl.
    by rewrite Hfx. }
  assert (Hnot : forall best lv', best <> x ->
            remove_suboptimal best sl0 (leaves p) <> Ret lv').
  { intros best lv' Hne. apply remove_suboptimal_twice; [done|congruence]. }
  assert (Hregx : registered p obs x).
  { exists (l1 ++ x :: l2 ++ x :: l3)%list. split; [done|].
    apply elem_of_app. right. left. }
  split.
  - intros p' H. pose proof H as H'. unfold prune in H. rewrite Hsl in H. simpl in H.
    destruct (max_by _ sl0) as [best| |] eqn:Hmax; simpl in H; try discriminate.
    destruct (remove_suboptimal best sl0 (leaves p)) as [lv| |] eqn:Hrm; simpl in H;
      try discriminate.
    destruct (decide (best = x)) as [->|Hne]; [|by destruct (Hnot best lv Hne)].
    destruct (prune_spec _ _ _ H' Hnd)
      as (_ & _ & best' & kb & Hr' & Hf' & Hin' & _ & Huniq & _).
    destruct (prune_frame _ _ _ H') as (_ & Hh' & _).
    destruct (remove_suboptimal_subset _ _ _ _ Hrm) as (_ & Hkeep & _).
    assert (Hx' : x ∈ leaves p').
    { inversion H; subst p'. simpl. apply Hkeep; [done | by left]. }
    assert (Hbx : x = best') by (apply Huniq; [done | by split | done]).
    split; [done|]. intros y Hy [Hcy Hiy]. subst best'.
    apply Huniq; [done| |done].
    split; [|by apply (prune_leaves _ _ _ H')].
    unfold node in *. by rewrite <- Hh'.
  - intros sl best Hsl' Hmax Hne. rewrite Hsl in Hsl'. inversion Hsl'; subst sl.
    unfold prune. rewrite Hsl. simpl. rewrite Hmax. simpl.
    destruct (remove_suboptimal best sl0 (leaves p)) as [lv|e|] eqn:Hrm; simpl.
    + by destruct (Hnot best lv Hne).
    + f_equal. by apply (remove_suboptimal_error best sl0 (leaves p) e).
    + by destruct (remove_suboptimal_error best sl0 (leaves p) ValueError).
Qed.

Lemma prune_double_registration_witness :
  prune planner_twice "B" = Raise ValueError.
Proof.
  refine (proj2 (prune_double_registration planner_twice "B" 2%nat [1%nat] [] []
                   _ _ _) [1%nat; 2%nat; 2%nat] 1%nat _ _ _).
  - apply NoDup_cons. split; [|apply NoDup_singleton].
    intros H. apply list_elem_of_singleton in H. discriminate.
  - reflexivity.
  - split; [reflexivity|]. right. left.
  - reflexivity.
  - reflexivity.
  - discriminate.
Defined.

(** ** backup_to_root: what it changes, and by how much *)

Section BackupSteps.

(** As [backup_to_root_rel], for a relation that is only known to hold
    across the [update_value] calls that a backup makes: on the state of a
    node with children, with the backed-up value of its best child. *)
Variable R : Planner -> Planner -> Prop.
Hypothesis R_refl : forall p, R p p.
Hypothesis R_trans : forall p q r, R p q -> R q r -> R p r.
Hypothesis R_backup :
  forall p nid best b p1 r,
    children (node p nid) <> [] ->
    max_by (fun c => get_value_upper_bound p (node p c))
           (map snd (children (node p nid))) = Ret best ->
    state_values p !! observation (node p best) = Some b ->
    update_value p (observation (node p nid))
                 (reward (node p best) + gamma (config p) * b) = Ret (p1, r) ->
    R p p1.

Lemma propagate_rel (rec : Planner -> nat -> res (Planner * nat)) (nid : nat)
    (self : Node) :
  (forall p n p' c, rec p n = Ret (p', c) -> R p p') ->
  forall p1 p' c, propagate rec nid self p1 = Ret (p', c) -> R p1 p'.
Proof.
  intros Hrec p1 p' c H. unfold propagate in H.
  destruct (match parent self with
            | Some par => rec p1 par
            | None => Ret (p1, O)
            end) as [[p2 c1]| |] eqn:Hpar; simpl in H; try discriminate.
  assert (R12 : R p1 p2).
  { destruct (parent self); [by eapply Hrec|]. inversion Hpar; subst. apply R_refl. }
  destruct (backup_aggregated_nodes (config p2)).
  - destruct (getitem _ _) as [nodes| |]; simpl in H; try discriminate.
    destruct (backup_aggregated rec nid p2 nodes) as [[p3 c2]| |] eqn:Hagg;
      simpl in H; try discriminate.
    inversion H; subst. apply (R_trans _ p2); [done|].
    by apply (backup_aggregated_rel R R_refl R_trans rec nid Hrec nodes p2 p' c2).
  - inversion H; subst. done.
Qed.

Lemma backup_to_root_steps (fuel : nat) :
  forall p nid p' c, backup_to_root fuel p nid = Ret (p', c) -> R p p'.
Proof.
  induction fuel as [|fuel IH]; intros p nid p' c H; simpl in H; [discriminate|].
  destruct (children (node p nid)) as [|ch chs] eqn:Hch.
  { inversion H; subst. apply R_refl. }
  destruct (max_by _ _) as [best| |] eqn:Hmax; simpl in H; try discriminate.
  unfold getitem in H.
  destruct (state_values p !! observation (node p best)) as [b|] eqn:Hb;
    simpl in H; try discriminate.
  destruct (update_value p _ _) as [[p1 [u dl]]| |] eqn:Hu; simpl in H;
    try discriminate.
  assert (R1 : R p p1).
  { apply (R_backup p nid best b p1 (u, dl)); try done.
    - by rewrite Hch.
    - by rewrite Hch. }
  destruct (u && Qltb (stopping_accuracy (config p1)) dl).
  - apply (R_trans _ p1); [done|].
    by apply (propagate_rel (backup_to_root fuel) nid (node p nid) IH p1 p' c).
  - inversion H; subst. done.
Qed.

End BackupSteps.

(** X10.  [backup_to_root] changes bounds and nothing else: the tree, the
    node index, the frontier and the configuration are as before.  The only
    bounds it can change are those of states that some node with children is
    in: the bound of a state reached by childless nodes only is untouched. *)
Theorem backup_to_root_frame (fuel : nat) (p p' : Planner) (nid c : nat) :
  backup_to_root fuel p nid = Ret (p', c) ->
  same_tree p p'
  /\ forall k, unexpanded_state p k -> state_values p' !! k = state_values p !! k.
Proof.
  revert p nid p' c.
  apply (backup_to_root_steps
           (fun p p' => same_tree p p'
              /\ forall k, unexpanded_state p k ->
                   state_values p' !! k = state_values p !! k)).
  - intros p. split; [apply same_tree_refl | done].
  - intros p q r [Hpq Hk] [Hqr Hk']. split; [by apply (same_tree_trans p q)|].
    intros k Hun. rewrite Hk', Hk; try done.
    intros n. unfold node. destruct Hpq as (_ & -> & _). apply Hun.
  - intros p nid best b p1 [u dl] Hch _ _ Hu.
    destruct (update_value_post _ _ _ _ _ _ Hu) as (_ & Hother & Hst).
    split; [done|]. intros k Hun. apply Hother. intros ->. by apply (Hun nid).
Qed.

Lemma backup_to_root_frame_witness :
  exists p' c,
    backup_to_root 9 (with_accuracy planner_cycle (1#100)) 1 = Ret (p', c)
    /\ same_tree (with_accuracy planner_cycle (1#100)) p'
    /\ forall k, unexpanded_state (with_accuracy planner_cycle (1#100)) k ->
         state_values p' !! k
         = state_values (with_accuracy planner_cycle (1#100)) !! k.
Proof.
  eexists. eexists. split; [vm_compute; reflexivity|].
  apply (backup_to_root_frame 9 (with_accuracy planner_cycle (1#100)) _ 1%nat 9%nat).
  vm_compute. reflexivity.
Defined.

(** X11.  After [backup_to_root] has returned on a node with children, the
    bound of the node's state is at most the one-step backup of its best
    child: the reward of that child plus [gamma] times the bound that the
    child's state had when the call started. *)
Theorem backup_to_root_bellman (fuel : nat) (p p' : Planner) (nid c : nat) :
  children (node p nid) <> [] ->
  backup_to_root fuel p nid = Ret (p', c) ->
  exists best b b',
    max_by (fun ch => get_value_upper_bound p (node p ch))
           (map snd (children (node p nid))) = Ret best
    /\ state_values p !! observation (node p best) = Some b
    /\ state_values p' !! observation (node p nid) = Some b'
    /\ b' <= reward (node p best) + gamma (config p) * b.
Proof.
  intros Hch H. destruct fuel as [|fuel]; simpl in H; [discriminate|].
  destruct (children (node p nid)) as [|ch chs] eqn:Hch'; [done|].
  destruct (max_by _ _) as [best| |] eqn:Hmax; simpl in H; try discriminate.
  unfold getitem in H.
  destruct (state_values p !! observation (node p best)) as [b|] eqn:Hb;
    simpl in H; try discriminate.
  destruct (update_value p _ _) as [[p1 [u dl]]| |] eqn:Hu; simpl in H;
    try discriminate.
  destruct (update_value_post _ _ _ _ _ _ Hu) as ((b1 & Hb1 & Hle1 & _) & _ & _).
  assert (Hmono : bounds_nonincreasing p1 p').
  { destruct (u && Qltb (stopping_accuracy (config p1)) dl).
    - apply (propagate_rel bounds_nonincreasing bounds_nonincreasing_refl
               bounds_nonincreasing_trans (backup_to_root fuel) nid (node p nid))
        with (c := c); [|done].
      intros q n q' c'.
      apply (backup_to_root_rel bounds_nonincreasing bounds_nonincreasing_refl
               bounds_nonincreasing_trans).
      intros q0 s v q1 r. apply update_value_nonincreasing.
    - inversion H; subst. apply bounds_nonincreasing_refl. }
  destruct (Hmono _ _ Hb1) as (b' & Hb' & Hle').
  exists best, b, b'. repeat split; try done.
  destruct Hle' as [->|Hlt]; [done|]. lra.
Qed.

Lemma backup_to_root_bellman_witness :
  exists p' c,
    backup_to_root 9 (with_accuracy planner_cycle (1#100)) 1 = Ret (p', c)
    /\ exists best b b',
         max_by (fun ch => get_value_upper_bound (with_accuracy planner_cycle (1#100))
                             (node (with_accuracy planner_cycle (1#100)) ch))
                (map snd (children (node (with_accuracy planner_cycle (1#100)) 1)))
         = Ret best
         /\ state_values (with_accuracy planner_cycle (1#100))
              !! observation (node (with_accuracy planner_cycle (1#100)) best)
            = Some b
         /\ state_values p'
              !! observation (node (with_accuracy planner_cycle (1#100)) 1)
            = Some b'
         /\ b' <= reward (node (with_accuracy planner_cycle (1#100)) best)
                  + gamma (config (with_accuracy planner_cycle (1#100))) * b.
Proof.
  eexists. eexists. split; [vm_compute; reflexivity|].
  apply (backup_to_root_bellman 9 (with_accuracy planner_cycle (1#100)) _ 1%nat
           9%nat).
  - discriminate.
  - vm_compute. reflexivity.
Defined.

(** ** The range of the bounds *)

Lemma max_value_facts (g : Q) :
  0 <= g -> g < 1 -> 0 <= 1 / (1 - g) /\ 1 + g * (1 / (1 - g)) == 1 / (1 - g).
Proof.
  intros H0 H1.
  assert (Hc : ~ 1 - g == 0) by lra.
  split.
  - apply Qle_shift_div_l; lra.
  - field. done.
Qed.

Lemma update_value_in_range (p p1 : Planner) (s : string) (v : Q) (r : bool * Q) :
  in_range p -> 0 <= v -> v <= 1 / (1 - gamma (config p)) ->
  update_value p s v = Ret (p1, r) -> in_range p1.
Proof.
  destruct r as [u dl]. intros [Hb Hr] Hv0 Hv1 Hu.
  destruct (update_value_frame _ _ _ _ _ Hu) as (Hc & Hh & _).
  split.
  - intros k b. rewrite Hc.
    apply update_value_inv in Hu as [(_ & -> & _)|(_ & -> & _)]; [apply Hb|].
    simpl. destruct (decide (k = s)) as [->|Hne].
    + rewrite lookup_insert_eq. by intros [= <-].
    + rewrite lookup_insert_ne by done. apply Hb.
  - intros nid. unfold node. rewrite Hh. apply Hr.
Qed.

Lemma registered_state_reward (p : Planner) (nid : nat) (r : Q) (d : bool) (v : Q)
    (obs : string) (nd : nat) :
  reward (node (registered_state p nid r d v obs) nd) = r
  \/ reward (node (registered_state p nid r d v obs) nd) = reward (node p nd).
Proof.
  unfold registered_state. cbv zeta.
  set (n1 := mkNode _ _ r v _ d _). set (p1 := set_node p nid n1).
  change (node (register ?q nid obs) nd) with (node q nd).
  rewrite node_set_node. case_decide as Hd.
  - destruct Hd as [-> _]. simpl. unfold p1. rewrite node_set_node.
    case_decide; [by left | by right].
  - unfold p1. rewrite node_set_node. case_decide; [by left | by right].
Qed.

(** X12.  With [0 <= gamma < 1], bounds between 0 and [1/(1-gamma)] and
    rewards between 0 and 1 stay so: [update] with a reward between 0 and 1,
    [backup_to_root] and the initialisation of [plan] all return a planner
    whose bounds are between 0 and [1/(1-gamma)]. *)
Theorem bounds_stay_in_range (accumulate : Planner -> nat -> Q -> res Q)
    (p : Planner) :
  0 <= gamma (config p) -> gamma (config p) < 1 ->
  in_range p ->
  (forall nid r d obs p',
     0 <= r -> r <= 1 ->
     update accumulate p nid r d obs = Ret p' -> in_range p')
  /\ (forall fuel nid p' c,
        backup_to_root fuel p nid = Ret (p', c) -> in_range p')
  /\ (forall obs p', plan_init p obs = Ret p' -> in_range p').
Proof.
  intros Hg0 Hg1 Hin. destruct (max_value_facts _ Hg0 Hg1) as [Hd0 Hd1].
  split; [|split].
  - intros nid r d obs p' Hr0 Hr1 Hup.
    apply update_shape in Hup
      as (v & p4 & u & dl & _ & Hu & Hc & _ & Hh & _ & Hv & _).
    destruct (registered_state_frame p nid r d v obs) as (Hc3 & _ & Hv3 & _).
    assert (H3 : in_range (registered_state p nid r d v obs)).
    { destruct Hin as [Hb Hr]. split.
      - intros k b. rewrite Hv3, Hc3. apply Hb.
      - intros nd. destruct (registered_state_reward p nid r d v obs nd) as [->| ->];
          [by split | apply Hr]. }
    assert (H4 : in_range p4).
    { apply (update_value_in_range _ _ _ _ _ H3) in Hu; [done| |];
        rewrite ?Hc3; unfold future_value_ucb;
        destruct (done _); lra. }
    destruct (update_value_frame _ _ _ _ _ Hu) as (Hc4 & Hh4 & _).
    destruct H4 as [Hb4 Hr4]. split.
    + intros k b. rewrite Hv, Hc, <- Hc3, <- Hc4. apply Hb4.
    + intros nd. unfold node. rewrite Hh, <- Hh4. apply Hr4.
  - intros fuel nid p' c H.
    apply (backup_to_root_steps
             (fun q q' => same_tree q q'
                /\ (0 <= gamma (config q) -> gamma (config q) < 1 ->
                    in_range q -> in_range q'))) in H; [by apply H| | |].
    + intros q. split; [apply same_tree_refl | done].
    + intros q1 q2 q3 [S12 I12] [S23 I23].
      split; [by apply (same_tree_trans q1 q2)|].
      intros G0 G1 H1. destruct S12 as (Hc & _).
      apply I23; [by rewrite Hc | by rewrite Hc | by apply I12].
    + intros q n best b q1 r _ _ Hb Hu.
      split; [by apply update_value_frame in Hu|].
      intros G0 G1 Hq. destruct (max_value_facts _ G0 G1) as [_ Hq1].
      destruct Hq as [Hbq Hrq]. destruct (Hbq _ _ Hb) as [Hb0 Hb1].
      destruct (Hrq best) as [Hr0 Hr1].
      apply (update_value_in_range _ _ _ _ _ (conj Hbq Hrq)) in Hu; [done| |].
      * nra.
      * rewrite <- Hq1.
        assert (gamma (config q) * b
                <= gamma (config q) * (1 / (1 - gamma (config q)))) by nra.
        lra.
  - intros obs p' H.
    destruct (plan_init_bound p obs Hg1) as (p'' & H' & Hbound).
    rewrite H in H'. inversion H'; subst p''. clear H'.
    apply plan_init_inv in H as (dflt & ->). simpl in Hbound.
    rewrite lookup_insert_eq in Hbound. inversion Hbound; subst dflt.
    destruct Hin as [Hb Hr]. split.
    + intros k b. simpl. destruct (decide (k = obs)) as [->|Hne].
      * rewrite lookup_insert_eq. intros [= <-]. split; [done | apply Qle_refl].
      * rewrite lookup_insert_ne by done. apply Hb.
    + intros nd.
      change (node (set_state_values ?a ?b) ?n) with (node a n).
      change (node (set_state_nodes ?a ?b) ?n) with (node a n).
      rewrite node_set_node. case_decide; [simpl|]; apply Hr.
Qed.

Lemma planner_cycle_in_range : in_range (with_accuracy planner_cycle (1#100)).
Proof.
  split.
  - intros k b Hb. simpl in Hb.
    destruct (decide (k = "A")) as [->|HA].
    + rewrite lookup_insert_eq in Hb. inversion Hb; subst b.
      split; vm_compute; discriminate.
    + rewrite lookup_insert_ne in Hb by done.
      destruct (decide (k = "B")) as [->|HB].
      * rewrite lookup_insert_eq in Hb. inversion Hb; subst b.
        split; vm_compute; discriminate.
      * rewrite lookup_insert_ne in Hb by done. by rewrite lookup_empty in Hb.
  - intros nid. unfold node. simpl.
    destruct nid as [|[|[|[|nid]]]]; simpl; split; vm_compute; discriminate.
Qed.

Lemma bounds_stay_in_range_witness :
  (exists p', update accumulate_ex (with_accuracy planner_cycle (1#100)) 2 1 false "B"
              = Ret p' /\ in_range p')
  /\ (exists p' c, backup_to_root 9 (with_accuracy planner_cycle (1#100)) 1
                   = Ret (p', c) /\ in_range p')
  /\ (exists p', plan_init (with_accuracy planner_cycle (1#100)) "C" = Ret p'
                 /\ in_range p').
Proof.
  destruct (bounds_stay_in_range accumulate_ex (with_accuracy planner_cycle (1#100)))
    as (H1 & H2 & H3).
  - vm_compute. discriminate.
  - vm_compute. reflexivity.
  - apply planner_cycle_in_range.
  - split; [|split].
    + eexists. split; [vm_compute; reflexivity|].
      apply (H1 2%nat 1 false "B"); [vm_compute; discriminate ..|].
      vm_compute. reflexivity.
    + eexists. eexists. split; [vm_compute; reflexivity|].
      apply (H2 9%nat 1%nat _ 9%nat). vm_compute. reflexivity.
    + eexists. split; [vm_compute; reflexivity|].
      apply (H3 "C"). vm_compute. reflexivity.
Defined.

(** ** Backups without aggregation *)

Lemma backup_without_aggregation_count (fuel : nat) :
  forall (p : Planner) (nid : nat),
    backup_aggregated_nodes (config p) = false ->
    shallower_parents p ->
    (depth (node p nid) < fuel)%nat ->
    match backup_to_root fuel p nid with
    | Ret (_, c) => (c <= S (depth (node p nid)))%nat
    | Raise _ => True
    | NoFuel => False
    end.
Proof.
  induction fuel as [|fuel IH]; intros p nid Hagg Hdeep Hfuel; [lia|].
  simpl. destruct (children (node p nid)) as [|ch chs]; [lia|].
  destruct (max_by _ _) as [best| |] eqn:Hmax; simpl; [|done|].
  2:{ apply max_by_ended in Hmax; [done|].
      intros x. apply get_value_upper_bound_ended. }
  unfold getitem.
  destruct (state_values p !! observation (node p best)) as [b|]; simpl; [|done].
  destruct (update_value p _ _) as [[p1 [u dl]]| |] eqn:Hu; simpl; [|done|].
  2:{ by apply update_value_ended in Hu. }
  destruct (update_value_frame _ _ _ _ _ Hu) as (Hc1 & Hh1 & _).
  destruct (u && Qltb (stopping_accuracy (config p1)) dl); [|lia].
  unfold propagate.
  destruct (parent (node p nid)) as [par|] eqn:Hpar.
  - assert (Hd : (depth (node p1 par) < depth (node p nid))%nat).
    { unfold node at 1. rewrite Hh1. by apply Hdeep. }
    assert (Hrec : match backup_to_root fuel p1 par with
                   | Ret (_, c) => (c <= S (depth (node p1 par)))%nat
                   | Raise _ => True
                   | NoFuel => False
                   end).
    { apply IH; [by rewrite Hc1| |lia].
      intros n q. unfold node. rewrite Hh1. apply Hdeep. }
    destruct (backup_to_root fuel p1 par) as [[p2 c1]| |] eqn:Hback; simpl;
      [|done|done].
    apply backup_to_root_same_tree in Hback as (Hc2 & _).
    rewrite Hc2, Hc1, Hagg. lia.
  - simpl. rewrite Hc1, Hagg. lia.
Qed.

(** X13.  Without aggregation the backup only climbs towards the root: when
    [backup_aggregated_nodes] is off and every node is deeper than its
    parent, [backup_to_root] comes to an end within [depth + 1] nested calls
    whatever the stopping accuracy is, and counts at most [depth + 1]
    nodes. *)
Theorem backup_without_aggregation (fuel : nat) (p : Planner) (nid : nat) :
  backup_aggregated_nodes (config p) = false ->
  shallower_parents p ->
  (depth (node p nid) < fuel)%nat ->
  backup_to_root fuel p nid <> NoFuel
  /\ forall p' c, backup_to_root fuel p nid = Ret (p', c) ->
       (c <= S (depth (node p nid)))%nat.
Proof.
  intros Hagg Hdeep Hfuel.
  pose proof (backup_without_aggregation_count fuel p nid Hagg Hdeep Hfuel) as H.
  destruct (backup_to_root fuel p nid) as [[q c]| |]; [|by split|done].
  split; [done|]. by intros p' c' [= <- <-].
Qed.

Lemma planner_cycle_plain_depths : shallower_parents planner_cycle_plain.
Proof.
  intros nid par. unfold node. simpl.
  destruct nid as [|[|[|[|nid]]]]; simpl; intros [= <-]; simpl; lia.
Qed.

Lemma backup_without_aggregation_witness :
  backup_to_root 2 planner_cycle_plain 1 <> NoFuel
  /\ forall p' c, backup_to_root 2 planner_cycle_plain 1 = Ret (p', c) ->
       (c <= S (depth (node planner_cycle_plain 1)))%nat.
Proof.
  apply (backup_without_aggregation 2 planner_cycle_plain 1).
  - reflexivity.
  - apply planner_cycle_plain_depths.
  - vm_compute. lia.
Defined.

(** ** run and plan *)

(** X14.  The search loop needs the bounds of the frontier: when the state
    of some frontier node has no bound, one iteration raises [KeyError]
    before anything is expanded.  This is the case of every planner fresh
    from its constructor, whose registries are empty, as soon as its frontier
    has a node. *)
Theorem run_needs_bounds (expand : Planner -> nat -> res Planner) (fuel : nat)
    (p : Planner) :
  (forall nd, nd ∈ leaves p ->
     state_values p !! observation (node p nd) = None ->
     run expand fuel p = Raise KeyError)
  /\ (leaves p <> [] -> run expand fuel (init_registries p) = Raise KeyError).
Proof.
  assert (Hgen : forall q nd, nd ∈ leaves q ->
            state_values q !! observation (node q nd) = None ->
            run expand fuel q = Raise KeyError).
  { intros q nd Hin Habs. unfold run.
    rewrite (max_by_raise _ KeyError); [done| |].
    - intros y _. apply get_value_upper_bound_cases.
    - exists nd. split; [done|]. by apply get_value_upper_bound_absent. }
  split; [apply Hgen|].
  intros Hne. destruct (leaves p) as [|nd l] eqn:Hl; [done|].
  apply (Hgen (init_registries p) nd).
  - simpl. rewrite Hl. left.
  - simpl. apply lookup_empty.
Qed.

Lemma run_needs_bounds_witness :
  run (expand_to "B") 3 planner_unseen = Raise KeyError
  /\ run (expand_to "B") 3 (init_registries planner_planned) = Raise KeyError.
Proof.
  destruct (run_needs_bounds (expand_to "B") 3 planner_unseen) as [H1 _].
  destruct (run_needs_bounds (expand_to "B") 3 planner_planned) as [_ H2].
  split.
  - apply (H1 1%nat); [left | reflexivity].
  - apply H2. discriminate.
Defined.

(** X15.  The initialisation of [plan] puts the root in the planned state
    and makes it the only node registered under that state, whatever was
    registered there before; the state gets the bound [1/(1-gamma)], so that
    the bound of the root can be computed.  The other states, the other
    nodes and the frontier are untouched.  When the frontier holds the root
    only, the iteration of the search loop that follows expands the root. *)
Theorem plan_init_root (expand : Planner -> nat -> res Planner) (fuel : nat)
    (p : Planner) (obs : string) :
  gamma (config p) < 1 -> (root p < length (heap p))%nat ->
  exists p1,
    plan_init p obs = Ret p1
    /\ observation (node p1 (root p)) = obs
    /\ state_nodes p1 !! obs = Some [root p]
    /\ state_values p1 !! obs = Some (1 / (1 - gamma (config p)))
    /\ get_value_upper_bound p1 (node p1 (root p))
       = Ret (value (node p (root p))
              + gamma (config p) ^ Z.of_nat (depth (node p (root p)))
                * (1 / (1 - gamma (config p))))
    /\ (forall k, k <> obs ->
          state_nodes p1 !! k = state_nodes p !! k
          /\ state_values p1 !! k = state_values p !! k)
    /\ (forall nd, nd <> root p -> node p1 nd = node p nd)
    /\ leaves p1 = leaves p
    /\ (leaves p = [root p] ->
        run expand fuel p1
        = let* p2 := expand p1 (root p) in backup_to_root fuel p2 (root p)).
Proof.
  intros Hg Hroot.
  destruct (plan_init_bound p obs Hg) as (p1 & H & Hbound).
  exists p1. split; [done|].
  apply plan_init_inv in H as (dflt & ->).
  assert (Hnode : forall nd,
    node (set_state_values
            (set_state_nodes
               (set_node p (root p) (set_observation (node p (root p)) obs))
               (<[obs := [root p]]> (state_nodes p)))
            (<[obs := dflt]> (state_values p))) nd
    = if decide (root p = nd /\ (root p < length (heap p))%nat)
      then set_observation (node p (root p)) obs else node p nd).
  { intros nd. change (node (set_state_values ?a ?b) ?n) with (node a n).
    change (node (set_state_nodes ?a ?b) ?n) with (node a n).
    apply node_set_node. }
  assert (Hgv : get_value_upper_bound
                  (set_state_values
                     (set_state_nodes
                        (set_node p (root p) (set_observation (node p (root p)) obs))
                        (<[obs := [root p]]> (state_nodes p)))
                     (<[obs := dflt]> (state_values p)))
                  (set_observation (node p (root p)) obs)
                = Ret (value (node p (root p))
                       + gamma (config p) ^ Z.of_nat (depth (node p (root p)))
                         * (1 / (1 - gamma (config p))))).
  { unfold get_value_upper_bound, getitem. simpl in *. rewrite Hbound. done. }
  rewrite !Hnode, decide_True by done.
  split; [done|]. split; [simpl; apply lookup_insert_eq|]. split; [done|].
  split; [done|]. split.
  { intros k Hk. simpl. by rewrite !lookup_insert_ne. }
  split.
  { intros nd Hnd. rewrite Hnode, decide_False; [done|]. intros [? _]. congruence. }
  split; [done|].
  intros Hl. unfold run. simpl leaves. rewrite Hl. simpl max_by.
  rewrite Hnode, decide_True by done. rewrite Hgv. done.
Qed.

Lemma plan_init_root_witness :
  exists p1,
    plan_init planner_one_expansion "B" = Ret p1
    /\ observation (node p1 (root planner_one_expansion)) = "B"
    /\ state_nodes p1 !! "B" = Some [root planner_one_expansion]
    /\ state_values p1 !! "B"
       = Some (1 / (1 - gamma (config planner_one_expansion)))
    /\ get_value_upper_bound p1 (node p1 (root planner_one_expansion))
       = Ret (value (node planner_one_expansion (root planner_one_expansion))
              + gamma (config planner_one_expansion)
                ^ Z.of_nat (depth (node planner_one_expansion
                                     (root planner_one_expansion)))
                * (1 / (1 - gamma (config planner_one_expansion))))
    /\ (forall k, k <> "B" ->
          state_nodes p1 !! k = state_nodes planner_one_expansion !! k
          /\ state_values p1 !! k = state_values planner_one_expansion !! k)
    /\ (forall nd, nd <> root planner_one_expansion ->
          node p1 nd = node planner_one_expansion nd)
    /\ leaves p1 = leaves planner_one_expansion
    /\ (leaves planner_one_expansion = [root planner_one_expansion] ->
        run (expand_to "B") 3 p1
        = let* p2 := expand_to "B" p1 (root planner_one_expansion)
          in backup_to_root 3 p2 (root planner_one_expansion)).
Proof.
  apply (plan_init_root (expand_to "B") 3 planner_one_expansion "B").
  - vm_compute. reflexivity.
  - vm_compute. lia.
Defined.

(** X16.  The search loop is best-first: an iteration that returns has
    expanded, and then backed up, the first frontier node whose bound is
    maximal; every frontier node before it has a strictly smaller bound,
    every one after it a bound that is not larger. *)
Theorem run_best_first (expand : Planner -> nat -> res Planner) (fuel : nat)
    (p : Planner) (r : Planner * nat) :
  run expand fuel p = Ret r ->
  exists l1 leaf l2 kb p1,
    leaves p = (l1 ++ leaf :: l2)%list
    /\ get_value_upper_bound p (node p leaf) = Ret kb
    /\ (forall y, y ∈ l1 ->
          exists k, get_value_upper_bound p (node p y) = Ret k /\ k < kb)
    /\ (forall y, y ∈ l2 ->
          exists k, get_value_upper_bound p (node p y) = Ret k /\ k <= kb)
    /\ expand p leaf = Ret p1
    /\ backup_to_root fuel p1 leaf = Ret r.
Proof.
  unfold run. intros H.
  destruct (max_by _ (leaves p)) as [leaf| |] eqn:Hmax; simpl in H; try discriminate.
  destruct (expand p leaf) as [p1| |] eqn:Hexp; simpl in H; try discriminate.
  destruct (max_by_first _ _ _ Hmax) as (l1 & l2 & kb & Hl & Hkb & H1 & H2).
  by exists l1, leaf, l2, kb, p1.
Qed.

Lemma run_best_first_witness :
  exists l1 leaf l2 kb p1,
    leaves planner_planned = (l1 ++ leaf :: l2)%list
    /\ get_value_upper_bound planner_planned (node planner_planned leaf) = Ret kb
    /\ (forall y, y ∈ l1 ->
          exists k, get_value_upper_bound planner_planned (node planner_planned y)
                    = Ret k /\ k < kb)
    /\ (forall y, y ∈ l2 ->
          exists k, get_value_upper_bound planner_planned (node planner_planned y)
                    = Ret k /\ k <= kb)
    /\ expand_to "B" planner_planned leaf = Ret p1
    /\ backup_to_root 2 p1 leaf = Ret (planner_one_expansion, 1%nat).
Proof.
  apply (run_best_first (expand_to "B") 2 planner_planned
           (planner_one_expansion, 1%nat)).
  vm_compute. reflexivity.
Defined.

(** ** A backup that has nothing to tighten *)

(** X17.  A backup on a node whose bound is already at or below the backup
    of its best child is redundant and safe: it counts the node, changes
    nothing, and propagates nowhere, whatever the stopping accuracy and the
    aggregated nodes are. *)
Theorem backup_to_root_consistent (fuel : nat) (p : Planner) (nid best : nat)
    (b cur : Q) :
  children (node p nid) <> [] ->
  max_by (fun c => get_value_upper_bound p (node p c))
         (map snd (children (node p nid))) = Ret best ->
  state_values p !! observation (node p best) = Some b ->
  state_values p !! observation (node p nid) = Some cur ->
  cur <= reward (node p best) + gamma (config p) * b ->
  backup_to_root (S fuel) p nid = Ret (p, 1%nat).
Proof.
  intros Hch Hmax Hb Hcur Hle.
  pose proof (update_value_present_ge p _ _ cur Hcur Hle) as Hu.
  by rewrite (backup_to_root_step fuel p nid best b p false 0 Hch Hmax Hb Hu).
Qed.

Lemma backup_to_root_consistent_witness :
  backup_to_root 1 planner_one_expansion O = Ret (planner_one_expansion, 1%nat).
Proof.
  apply (backup_to_root_consistent O planner_one_expansion O 1%nat 2
           (0 + (1#2) * 2)).
  - discriminate.
  - reflexivity.
  - reflexivity.
  - reflexivity.
  - vm_compute. discriminate.
Defined.

(** ** The two registries agree *)

Lemma planner_step_covers (accumulate : Planner -> nat -> Q -> res Q)
    (p p' : Planner) :
  planner_step accumulate p p' -> bounds_cover_index p -> bounds_cover_index p'.
Proof.
  intros Hstep Hcov.
  destruct Hstep as [q nid r d obs q' H|fuel q nid q' c H|q|q obs q' H
                     |q q' [q0 nid lv H|q0 nid Hn Hr]]; try done.
  - apply update_shape in H
      as (v & p4 & u & dl & _ & Hu & _ & _ & _ & Hn & Hv & _).
    destruct (registered_state_frame q nid r d v obs) as (_ & _ & Hv3 & _ & _ & Hne).
    destruct (update_value_post _ _ _ _ _ _ Hu) as ((b & Hb & _) & Hother & _).
    intros s nodes Hs. rewrite Hv. destruct (decide (s = obs)) as [->|Hso].
    + by exists b.
    + rewrite (Hother s Hso), Hv3. rewrite Hn, (Hne s Hso) in Hs.
      by apply (Hcov s nodes).
  - pose proof (backup_to_root_same_tree _ _ _ _ _ H) as (_ & _ & _ & Hn & _).
    assert (Hmono : bounds_nonincreasing q q').
    { revert H. apply (backup_to_root_rel bounds_nonincreasing
                         bounds_nonincreasing_refl bounds_nonincreasing_trans).
      intros q0 s v q1 r. apply update_value_nonincreasing. }
    intros s nodes Hs. rewrite Hn in Hs.
    destruct (Hcov s nodes Hs) as [b Hb].
    destruct (Hmono s b Hb) as (b' & Hb' & _). by exists b'.
  - apply plan_init_inv in H as (dflt & ->).
    intros s nodes. simpl. destruct (decide (s = obs)) as [->|Hso].
    + intros _. rewrite lookup_insert_eq. by exists dflt.
    + rewrite !lookup_insert_ne by done. apply Hcov.
Qed.

(** X18.  The two registries stay consistent: every state that has an entry
    in the index of nodes also has a bound.  This holds for a planner fresh
    from its constructor, and is kept by [make_root], [plan], [update],
    [backup_to_root] and the frontier moves of the expansion, in any order. *)
Theorem registries_consistent (accumulate : Planner -> nat -> Q -> res Q) :
  (forall p, bounds_cover_index (init_registries p))
  /\ (forall p p', bounds_cover_index p -> planner_steps accumulate p p' ->
        bounds_cover_index p').
Proof.
  split.
  - intros p s nodes Hs. simpl in Hs. by rewrite lookup_empty in Hs.
  - intros p p' Hcov Hsteps. induction Hsteps as [p|p q r Hstep Hsteps IH]; [done|].
    apply IH. by apply (planner_step_covers accumulate p q).
Qed.

Lemma registries_consistent_witness :
  exists p', planner_steps accumulate_ex (init_registries planner_expanding) p'
             /\ state_nodes p' !! "B" = Some [1%nat]
             /\ bounds_cover_index p'.
Proof.
  destruct (registries_consistent accumulate_ex) as [H0 H1].
  eexists. split; [|split].
  - eapply steps_cons.
    { apply (step_plan _ (init_registries planner_expanding) "A"). reflexivity. }
    eapply steps_cons.
    { apply step_frontier, (frontier_remove _ O []). reflexivity. }
    eapply steps_cons.
    { apply step_frontier, (frontier_append _ 1%nat).
      - apply not_elem_of_nil.
      - apply unregistered_check. vm_compute. reflexivity. }
    eapply steps_cons.
    { eapply (step_update _ _ 1%nat 1 false "B"). vm_compute. reflexivity. }
    apply steps_nil.
  - reflexivity.
  - apply (H1 (init_registries planner_expanding)); [apply H0|].
    eapply steps_cons.
    { apply (step_plan _ (init_registries planner_expanding) "A"). reflexivity. }
    eapply steps_cons.
    { apply step_frontier, (frontier_remove _ O []). reflexivity. }
    eapply steps_cons.
    { apply step_frontier, (frontier_append _ 1%nat).
      - apply not_elem_of_nil.
      - apply unregistered_check. vm_compute. reflexivity. }
    eapply steps_cons.
    { eapply (step_update _ _ 1%nat 1 false "B"). vm_compute. reflexivity. }
    apply steps_nil.
Defined.
